(** * tenderduty: alert de-duplication, dashboard registry and chain monitor

    A shallow embedding of [alert.go].  Package-level variables of the Go
    file ([sentPdAlarms], [sentTgAlarms], [sentDAlarms], [currentAlarms]) and
    the queues and log they write to are fields of one [World] record that
    every function threads explicitly.  Each function body is one atomic
    step: the mutexes of the source ([notifyMux], [currentAlarmsMux],
    [chainsMux]) only serialise the calls and have no counterpart here.

    Go maps are [gmap]s; reading a missing key of a [map[string]bool] gives
    [false] ([mapGet]).  Go's [int]/[int64] are [Z] with the 64-bit
    wrap-around written out ([wrap_int]); [float64] is the primitive binary64
    float of Rocq; [time.Time] is a count of nanoseconds since the zero
    instant and [time.Duration] a 64-bit count of nanoseconds. *)

From Stdlib Require Import ZArith Lia.
From Stdlib Require Import Floats.PrimFloat Numbers.Cyclic.Int63.Uint63.
From stdpp Require Import gmap strings pretty list.

Local Open Scope Z_scope.

(** ** Go base types *)

Module Go.

(** Two's-complement wrap-around of a 64-bit signed integer. *)
Definition wrap_int (z : Z) : Z := (z + 2 ^ 63) `mod` 2 ^ 64 - 2 ^ 63.

Definition in_int (z : Z) : Prop := - 2 ^ 63 <= z < 2 ^ 63.

(** [float64(z)] for an integer [z] of the 64-bit range: the nearest
    binary64 value.  [of_uint63] rounds a 63-bit natural correctly; the
    only magnitude outside its domain is [2^63], which is exact. *)
Definition float64_of_int (z : Z) : float :=
  let a := Z.abs z in
  let f := if a <? 2 ^ 63 then PrimFloat.of_uint63 (Uint63.of_Z a)
           else PrimFloat.mul (PrimFloat.of_uint63 (Uint63.of_Z 2))
                              (PrimFloat.of_uint63 (Uint63.of_Z (a / 2))) in
  if z <? 0 then PrimFloat.opp f else f.

(** [a > b] on float64 (false as soon as one side is NaN). *)
Definition float_gt (a b : float) : bool := PrimFloat.ltb b a.
Definition float_lt (a b : float) : bool := PrimFloat.ltb a b.

(** [map[string]bool] read: the zero value for an absent key. *)
Definition mapGet (m : gmap string bool) (k : string) : bool :=
  default false (m !! k).

(** [strings.Join(elems, sep)]. *)
Fixpoint Join (elems : list string) (sep : string) : string :=
  match elems with
  | [] => ""
  | [e] => e
  | e :: rest => e +:+ sep +:+ Join rest sep
  end.

(** The verb [%d] of [fmt.Sprintf] on an integer. *)
Definition fmt_d (z : Z) : string := pretty z.

Definition newline : string := String (Ascii.ascii_of_nat 10) EmptyString.

End Go.

(** ** package time *)

Module time.

Definition Time := Z.
Definition Duration := Z.

Definition Second : Duration := 1000000000.
Definition Minute : Duration := 60 * Second.

Definition minDuration : Duration := - 2 ^ 63.
Definition maxDuration : Duration := 2 ^ 63 - 1.

Definition IsZero (t : Time) : bool := t =? 0.
Definition Before (t u : Time) : bool := t <? u.
Definition Add (t : Time) (d : Duration) : Time := t + d.

(** [t.Sub(u)] saturates at the ends of the Duration range. *)
Definition Sub (t u : Time) : Duration :=
  let d := t - u in
  if d <? minDuration then minDuration
  else if maxDuration <? d then maxDuration
  else d.

(** [d.Minutes()]: integer minutes plus the fractional remainder, both
    converted separately, as the library does. *)
Definition Minutes (d : Duration) : float :=
  let min := Z.quot d Minute in
  let nsec := Z.rem d Minute in
  PrimFloat.add (Go.float64_of_int min)
    (PrimFloat.div (Go.float64_of_int nsec) (Go.float64_of_int 60000000000)).

Definition Seconds (d : Duration) : float :=
  let sec := Z.quot d Second in
  let nsec := Z.rem d Second in
  PrimFloat.add (Go.float64_of_int sec)
    (PrimFloat.div (Go.float64_of_int nsec) (Go.float64_of_int 1000000000)).

End time.

(** ** Alert messages and destinations *)

Definition error := string.

Module Msg.
Record alertMsg := {
  pd : bool;
  disc : bool;
  tg : bool;

  severity : string;
  resolved : bool;
  chain : string;
  message : string;
  uniqueId : string;
  key : string;

  tgChannel : string;
  tgKey : string;
  tgMentions : string;

  discHook : string;
  discMentions : string
}.
End Msg.
Abbreviation alertMsg := Msg.alertMsg.

(** [notifyDest] is a [uint8] with three named values; every call site of
    the file passes one of them. *)
Inductive notifyDest := pd | tg | di.

#[global] Instance notifyDest_eq_dec : EqDecision notifyDest.
Proof. solve_decision. Defined.

(** ** Calls that leave the process *)

Record DiscordEmbed := {
  Title : string;
  Url : string;
  Description : string;
  Color : Z
}.

Record DiscordMessage := {
  Username : string;
  AvatarUrl : string;
  Content : string;
  Embeds : list DiscordEmbed
}.

Record V2Event := {
  RoutingKey : string;
  Action : string;
  DedupKey : string;
  Summary : string;
  Source : string;
  Severity : string
}.

(** One entry per request handed to a transport library. *)
Inductive NetCall :=
| HttpPost (url body : string)
| TgGetMe (token : string)
| TgSend (channel text : string)
| PdEvent (ev : V2Event).

(** What the transport libraries answer.  They are not part of the package;
    their answers are inputs of the model. *)
Record Net := {
  MarshalIndent : DiscordMessage -> string + error;
  NewRequest : string -> string -> option error;
  Do : string -> string -> Z + error;
  NewBotAPI : string -> option error;
  Send : string -> string -> option error;
  ManageEventWithContext : V2Event -> option error
}.

(** ** Package state *)

Record World := {
  sentPdAlarms : gmap string bool;
  sentTgAlarms : gmap string bool;
  sentDAlarms : gmap string bool;
  currentAlarms : gmap string (gmap string bool);
  alertChan : list alertMsg;
  logged : list string;
  wire : list NetCall
}.

Definition emptyWorld : World :=
  {| sentPdAlarms := ∅; sentTgAlarms := ∅; sentDAlarms := ∅;
     currentAlarms := ∅; alertChan := []; logged := []; wire := [] |}.

(** Modelled from the spec: the logging helper [l] is declared in another
    file of the package; §4.1 only says that it emits a log/audit line.  Here
    it appends the line to [logged]. *)
Definition l (line : string) (w : World) : World :=
  {| sentPdAlarms := sentPdAlarms w; sentTgAlarms := sentTgAlarms w;
     sentDAlarms := sentDAlarms w; currentAlarms := currentAlarms w;
     alertChan := alertChan w; logged := logged w ++ [line]; wire := wire w |}.

Definition transmit (c : NetCall) (w : World) : World :=
  {| sentPdAlarms := sentPdAlarms w; sentTgAlarms := sentTgAlarms w;
     sentDAlarms := sentDAlarms w; currentAlarms := currentAlarms w;
     alertChan := alertChan w; logged := logged w; wire := wire w ++ [c] |}.

(** The map selected by the [switch dest] of [shouldNotify]. *)
Definition whichMapOf (dest : notifyDest) (w : World) : gmap string bool :=
  match dest with
  | pd => sentPdAlarms w
  | tg => sentTgAlarms w
  | di => sentDAlarms w
  end.

Definition serviceOf (dest : notifyDest) : string :=
  match dest with
  | pd => "PagerDuty"
  | tg => "Telegram"
  | di => "Discord"
  end.

(** Writing through [whichMap] writes the package-level map it aliases. *)
Definition storeMap (dest : notifyDest) (m : gmap string bool) (w : World) : World :=
  {| sentPdAlarms := if decide (dest = pd) then m else sentPdAlarms w;
     sentTgAlarms := if decide (dest = tg) then m else sentTgAlarms w;
     sentDAlarms := if decide (dest = di) then m else sentDAlarms w;
     currentAlarms := currentAlarms w; alertChan := alertChan w;
     logged := logged w; wire := wire w |}.

(** ** shouldNotify *)

Definition shouldNotify (msg : alertMsg) (dest : notifyDest) (w : World) : bool * World :=
  let whichMap := whichMapOf dest w in
  let service := serviceOf dest in
  if Go.mapGet whichMap (Msg.message msg) && negb (Msg.resolved msg) then
    (* already sent this alert *)
    (false, w)
  else if Go.mapGet whichMap (Msg.message msg) && Msg.resolved msg then
    (* alarm is cleared *)
    let w := storeMap dest (delete (Msg.message msg) whichMap) w in
    let w := l ("💜 Resolved     alarm on " +:+ Msg.chain msg +:+ " (" +:+ Msg.message msg
                +:+ ") - notifying " +:+ service) w in
    (true, w)
  else
    let w := storeMap dest (<[Msg.message msg := true]> whichMap) w in
    let w := l ("🚨 ALERT        new alarm on " +:+ Msg.chain msg +:+ " (" +:+ Msg.message msg
                +:+ ") - notifying " +:+ service) w in
    (true, w).

(** ** Per-sink wrappers *)

Definition buildDiscordMessage (msg : alertMsg) : DiscordMessage :=
  let prefix := if Msg.resolved msg then "💜 Resolved: " else "🚨 ALERT: " in
  {| Username := "tenderuty";
     AvatarUrl := "";
     Content := prefix +:+ Msg.chain msg;
     Embeds := [ {| Title := ""; Url := ""; Description := Msg.message msg; Color := 0 |} ] |}.

Definition notifyDiscord (net : Net) (msg : alertMsg) (w : World) : option error * World :=
  if negb (Msg.disc msg) then (None, w)
  else
    let '(ok, w) := shouldNotify msg di w in
    if negb ok then (None, w)
    else
      let discPost := buildDiscordMessage msg in
      match MarshalIndent net discPost with
      | inr err => (Some err, l ("notify discord: " +:+ err) w)
      | inl data =>
          match NewRequest net (Msg.discHook msg) data with
          | Some err => (Some err, l ("notify discord: " +:+ err) w)
          | None =>
              let w := transmit (HttpPost (Msg.discHook msg) data) w in
              match Do net (Msg.discHook msg) data with
              | inr err => (Some err, l ("notify discord: " +:+ err) w)
              | inl StatusCode =>
                  if negb (StatusCode =? 204) then
                    (* [log.Println(resp)], then [l] and [return] with [err], which
                       is still the nil of the successful [Do] *)
                    let w := l ("response " +:+ Go.fmt_d StatusCode) w in
                    (None, l "notify discord: <nil>" w)
                  else (None, w)
              end
          end
      end.

Definition notifyTg (net : Net) (msg : alertMsg) (w : World) : option error * World :=
  if negb (Msg.tg msg) then (None, w)
  else
    let '(ok, w) := shouldNotify msg tg w in
    if negb ok then (None, w)
    else
      let w := transmit (TgGetMe (Msg.tgKey msg)) w in
      match NewBotAPI net (Msg.tgKey msg) with
      | Some err => (Some err, l ("notify telegram: " +:+ err) w)
      | None =>
          let prefix := if Msg.resolved msg then "💜 Resolved: " else "🚨 ALERT: " in
          let text := Msg.chain msg +:+ ": " +:+ prefix +:+ " - " +:+ Msg.message msg in
          let w := transmit (TgSend (Msg.tgChannel msg) text) w in
          match Send net (Msg.tgChannel msg) text with
          | Some err => (Some err, l ("telegram send: " +:+ err) w)
          | None => (None, w)
          end
      end.

Definition notifyPagerduty (net : Net) (msg : alertMsg) (w : World) : option error * World :=
  if negb (Msg.pd msg) then (None, w)
  else
    let '(ok, w) := shouldNotify msg pd w in
    if negb ok then (None, w)
    else if String.eqb (Msg.key msg) "aaaaaaaaaaaabbbbbbbbbbbbbcccccccccccc" then
      (* key from the example, don't spam their api *)
      (None, l "invalid pagerduty key" w)
    else
      let action := if Msg.resolved msg then "resolve" else "trigger" in
      let ev := {| RoutingKey := Msg.key msg; Action := action;
                   DedupKey := Msg.uniqueId msg; Summary := Msg.message msg;
                   Source := Msg.uniqueId msg; Severity := Msg.severity msg |} in
      let w := transmit (PdEvent ev) w in
      (ManageEventWithContext net ev, w).

(** ** Configuration

    The declarations of [Config], [ChainConfig], [NodeConfig] and the
    validator record live in another file of the package; the records below
    have exactly the fields that [alert.go] reads or writes, nested field
    paths flattened with an underscore ([c.Pagerduty.Enabled] is
    [Pagerduty_Enabled]).  Integer fields are Go [int]s. *)

Module Val.
Record ValInfo := {
  Moniker : string;
  Valcons : string;
  Missed : Z;
  Window : Z
}.
End Val.
Abbreviation ValInfo := Val.ValInfo.

Module Node.
Record NodeConfig := {
  Url : string;
  AlertIfDown : bool;
  down : bool;
  downSince : time.Time
}.
End Node.
Abbreviation NodeConfig := Node.NodeConfig.

Module CC.
Record ChainConfig := {
  name : string;
  ChainId : string;
  ValAddress : string;
  Alerts_AlertIfNoServers : bool;
  Alerts_StalledAlerts : bool;
  Alerts_Stalled : Z;
  Alerts_ConsecutiveAlerts : bool;
  Alerts_ConsecutiveMissed : Z;
  Alerts_PercentageAlerts : bool;
  Alerts_Window : Z;
  Alerts_PagerdutyAlerts : bool;
  Alerts_DiscordAlerts : bool;
  Alerts_TelegramAlerts : bool;
  valInfo : option ValInfo;
  noNodes : bool;
  lastBlockAlarm : bool;
  lastBlockTime : time.Time;
  statConsecutiveMiss : Z;
  activeAlerts : Z;
  Nodes : list NodeConfig
}.
End CC.
Abbreviation ChainConfig := CC.ChainConfig.

Module Cfg.
Record Config := {
  HideLogs : bool;
  Prom : bool;
  NodeDownMin : Z;
  Pagerduty_Enabled : bool;
  Pagerduty_ApiKey : string;
  Discord_Enabled : bool;
  Discord_Webhook : string;
  Discord_Mentions : list string;
  Telegram_Enabled : bool;
  Telegram_Channel : string;
  Telegram_ApiKey : string;
  Telegram_Mentions : list string;
  Chains : gmap string ChainConfig
}.
End Cfg.
Abbreviation Config := Cfg.Config.

(** ** Dashboard alarm registry *)

Definition glyph : string := "🚨 ".

(** The body of [for k := range m { result += glyph + k + newline }] once
    the order in which [range] visits the keys is fixed. *)
Definition alarmLines (keys : list string) : string :=
  foldl (fun result k => result +:+ (glyph +:+ k +:+ Go.newline)) "" keys.

Definition mapKeys (m : gmap string bool) : list string := (map_to_list m).*1.

(** Go visits the keys of a map in an unspecified order; [rangeKeys] is the
    order of this call. *)
Definition getAlarms (rangeKeys : gmap string bool -> list string)
    (td : Config) (chain : string) (w : World) : string :=
  (* don't show this info if the logs are disabled on the dashboard *)
  match Cfg.HideLogs td, currentAlarms w !! chain with
  | true, _ => ""
  | false, None => ""
  | false, Some alarms => alarmLines (rangeKeys alarms)
  end.

Definition storeAlarms (m : gmap string (gmap string bool)) (w : World) : World :=
  {| sentPdAlarms := sentPdAlarms w; sentTgAlarms := sentTgAlarms w;
     sentDAlarms := sentDAlarms w; currentAlarms := m;
     alertChan := alertChan w; logged := logged w; wire := wire w |}.

(** [c.alertChan <- a].  The queue is taken to have room. *)
Definition sendAlert (a : alertMsg) (w : World) : World :=
  {| sentPdAlarms := sentPdAlarms w; sentTgAlarms := sentTgAlarms w;
     sentDAlarms := sentDAlarms w; currentAlarms := currentAlarms w;
     alertChan := alertChan w ++ [a]; logged := logged w; wire := wire w |}.

(** [alert] creates a universal alert and pushes it to the alertChan.
    [c.Chains] maps a chain name to a pointer ([watch] has a pointer
    receiver and mutates the entry); a name that is not configured makes the
    first field access fail, which is the [None] result. *)
Definition alert (c : Config) (chainName message severity : string)
    (resolved : bool) (id : option string) (w : World) : option World :=
  cc ← Cfg.Chains c !! chainName;
  let uniq := match id with Some i => i | None => CC.ValAddress cc end in
  let a : alertMsg :=
    {| Msg.pd := Cfg.Pagerduty_Enabled c && CC.Alerts_PagerdutyAlerts cc;
       Msg.disc := Cfg.Discord_Enabled c && CC.Alerts_DiscordAlerts cc;
       Msg.tg := Cfg.Telegram_Enabled c && CC.Alerts_TelegramAlerts cc;
       Msg.severity := severity;
       Msg.resolved := resolved;
       Msg.chain := chainName;
       Msg.message := message;
       Msg.uniqueId := uniq;
       Msg.key := Cfg.Pagerduty_ApiKey c;
       Msg.tgChannel := Cfg.Telegram_Channel c;
       Msg.tgKey := Cfg.Telegram_ApiKey c;
       Msg.tgMentions := Go.Join (Cfg.Telegram_Mentions c) " ";
       Msg.discHook := Cfg.Discord_Webhook c;
       Msg.discMentions := Go.Join (Cfg.Discord_Mentions c) " " |} in
  let w := sendAlert a w in
  let alarms := default ∅ (currentAlarms w !! chainName) in
  if resolved && Go.mapGet alarms message then
    Some (storeAlarms (<[chainName := delete message alarms]> (currentAlarms w)) w)
  else if resolved then
    Some (storeAlarms (<[chainName := alarms]> (currentAlarms w)) w)
  else
    Some (storeAlarms (<[chainName := <[message := true]> alarms]> (currentAlarms w)) w).

(** ** Chain monitor *)

Inductive metricType := metricNodeDownSeconds | metricLastBlockSecondsNotFinal.

Record promUpdate := {
  metric : metricType;
  counter : float;
  chainName : string;
  endpoint : string
}.

(** Modelled from the spec: [mkUpdate] is declared in another file of the
    package; §6 describes what it builds as a (chain, metric-kind, value,
    optional node label) tuple. *)
Definition mkUpdate (cc : ChainConfig) (t : metricType) (v : float) (node : string) : promUpdate :=
  {| metric := t; counter := v; chainName := CC.name cc; endpoint := node |}.

(** What one pass of the monitor hands to the rest of the program, in
    order: calls of [td.alert] and sends on [td.statsChan]. *)
Inductive Event :=
| AlertCall (chainName message severity : string) (resolved : bool) (id : option string)
| StatsSend (u : promUpdate).

Definition isAlertCall (e : Event) : bool :=
  match e with AlertCall _ _ _ _ _ => true | StatsSend _ => false end.

Definition alertCalls (es : list Event) : list Event := filter (fun e => isAlertCall e = true) es.

Definition isResolve (e : Event) : bool :=
  match e with AlertCall _ _ _ r _ => r | StatsSend _ => false end.

(** The variables of [watch] together with the [ChainConfig] it points to. *)
Module Watch.
Record State := {
  missedAlarm : bool;
  pctAlarm : bool;
  noNodes : bool;
  nodeAlarms : gmap string bool;
  cc : ChainConfig
}.
End Watch.

Definition set_missedAlarm (b : bool) (st : Watch.State) : Watch.State :=
  {| Watch.missedAlarm := b; Watch.pctAlarm := Watch.pctAlarm st;
     Watch.noNodes := Watch.noNodes st; Watch.nodeAlarms := Watch.nodeAlarms st;
     Watch.cc := Watch.cc st |}.

Definition set_pctAlarm (b : bool) (st : Watch.State) : Watch.State :=
  {| Watch.missedAlarm := Watch.missedAlarm st; Watch.pctAlarm := b;
     Watch.noNodes := Watch.noNodes st; Watch.nodeAlarms := Watch.nodeAlarms st;
     Watch.cc := Watch.cc st |}.

Definition set_noNodes (b : bool) (st : Watch.State) : Watch.State :=
  {| Watch.missedAlarm := Watch.missedAlarm st; Watch.pctAlarm := Watch.pctAlarm st;
     Watch.noNodes := b; Watch.nodeAlarms := Watch.nodeAlarms st;
     Watch.cc := Watch.cc st |}.

Definition set_nodeAlarm (url : string) (b : bool) (st : Watch.State) : Watch.State :=
  {| Watch.missedAlarm := Watch.missedAlarm st; Watch.pctAlarm := Watch.pctAlarm st;
     Watch.noNodes := Watch.noNodes st;
     Watch.nodeAlarms := <[url := b]> (Watch.nodeAlarms st);
     Watch.cc := Watch.cc st |}.

Definition set_cc (c : ChainConfig) (st : Watch.State) : Watch.State :=
  {| Watch.missedAlarm := Watch.missedAlarm st; Watch.pctAlarm := Watch.pctAlarm st;
     Watch.noNodes := Watch.noNodes st; Watch.nodeAlarms := Watch.nodeAlarms st;
     Watch.cc := c |}.

(** The two fields of [ChainConfig] that [watch] writes. *)
Definition with_owned (alarm : bool) (active : Z) (c : ChainConfig) : ChainConfig :=
  {| CC.name := CC.name c; CC.ChainId := CC.ChainId c; CC.ValAddress := CC.ValAddress c;
     CC.Alerts_AlertIfNoServers := CC.Alerts_AlertIfNoServers c;
     CC.Alerts_StalledAlerts := CC.Alerts_StalledAlerts c;
     CC.Alerts_Stalled := CC.Alerts_Stalled c;
     CC.Alerts_ConsecutiveAlerts := CC.Alerts_ConsecutiveAlerts c;
     CC.Alerts_ConsecutiveMissed := CC.Alerts_ConsecutiveMissed c;
     CC.Alerts_PercentageAlerts := CC.Alerts_PercentageAlerts c;
     CC.Alerts_Window := CC.Alerts_Window c;
     CC.Alerts_PagerdutyAlerts := CC.Alerts_PagerdutyAlerts c;
     CC.Alerts_DiscordAlerts := CC.Alerts_DiscordAlerts c;
     CC.Alerts_TelegramAlerts := CC.Alerts_TelegramAlerts c;
     CC.valInfo := CC.valInfo c; CC.noNodes := CC.noNodes c;
     CC.lastBlockAlarm := alarm;
     CC.lastBlockTime := CC.lastBlockTime c;
     CC.statConsecutiveMiss := CC.statConsecutiveMiss c;
     CC.activeAlerts := active;
     CC.Nodes := CC.Nodes c |}.

Definition set_lastBlockAlarm (b : bool) (st : Watch.State) : Watch.State :=
  set_cc (with_owned b (CC.activeAlerts (Watch.cc st)) (Watch.cc st)) st.

(** [cc.activeAlerts += d] on a Go [int]. *)
Definition add_activeAlerts (d : Z) (st : Watch.State) : Watch.State :=
  set_cc (with_owned (CC.lastBlockAlarm (Watch.cc st))
            (Go.wrap_int (CC.activeAlerts (Watch.cc st) + d)) (Watch.cc st)) st.

(** A block of the loop body: the state it leaves and what it emitted, or
    [None] when it dereferences a nil [cc.valInfo]. *)
Definition Step := Watch.State -> option (Watch.State * list Event).

Definition andThen (f g : Step) : Step := fun st =>
  '(st1, e1) ← f st;
  '(st2, e2) ← g st1;
  Some (st2, e1 ++ e2).

Definition noNodesMessage (cc : ChainConfig) : string :=
  "no RPC endpoints are working for " +:+ CC.ChainId cc.

Definition stalledMessage (cc : ChainConfig) : string :=
  "stalled: have not seen a new block on " +:+ CC.ChainId cc +:+ " in "
    +:+ Go.fmt_d (CC.Alerts_Stalled cc) +:+ " minutes".

Definition consecutiveMessage (cc : ChainConfig) (vi : ValInfo) : string :=
  Val.Moniker vi +:+ " has missed " +:+ Go.fmt_d (CC.Alerts_ConsecutiveMissed cc)
    +:+ " blocks on " +:+ CC.ChainId cc.

Definition percentMessage (cc : ChainConfig) (vi : ValInfo) : string :=
  Val.Moniker vi +:+ " has missed > " +:+ Go.fmt_d (CC.Alerts_Window cc)
    +:+ "% of the slashing window's blocks on " +:+ CC.ChainId cc.

Definition nodeMessage (td : Config) (cc : ChainConfig) (node : NodeConfig) : string :=
  "RPC node " +:+ Node.Url node +:+ " has been down for > " +:+ Go.fmt_d (Cfg.NodeDownMin td)
    +:+ " minutes on " +:+ CC.ChainId cc.

(** alert if we can't monitor *)
Definition stepNoNodes : Step := fun st =>
  let cc := Watch.cc st in
  if CC.Alerts_AlertIfNoServers cc && negb (Watch.noNodes st) && CC.noNodes cc then
    let st := set_noNodes true st in
    vi ← CC.valInfo cc;
    Some (st, [AlertCall (CC.name cc) (noNodesMessage cc) "critical" false (Some (Val.Valcons vi))])
  else if CC.Alerts_AlertIfNoServers cc && Watch.noNodes st && negb (CC.noNodes cc) then
    let st := set_noNodes false st in
    vi ← CC.valInfo cc;
    Some (st, [AlertCall (CC.name cc) (noNodesMessage cc) "critical" true (Some (Val.Valcons vi))])
  else Some (st, []).

(** [cc.lastBlockTime.Before(time.Now().Add(time.Duration(-cc.Alerts.Stalled)*time.Minute))] *)
Definition stalledSince (now : time.Time) (cc : ChainConfig) : bool :=
  time.Before (CC.lastBlockTime cc)
    (time.Add now (Go.wrap_int (Go.wrap_int (- CC.Alerts_Stalled cc) * time.Minute))).

Definition stepStalled (now : time.Time) : Step := fun st =>
  let cc := Watch.cc st in
  if CC.Alerts_StalledAlerts cc && negb (CC.lastBlockAlarm cc)
     && negb (time.IsZero (CC.lastBlockTime cc)) && stalledSince now cc then
    (* chain is stalled send an alert! *)
    let st := set_lastBlockAlarm true st in
    vi ← CC.valInfo cc;
    Some (st, [AlertCall (CC.name cc) (stalledMessage cc) "critical" false (Some (Val.Valcons vi))])
  else if CC.Alerts_StalledAlerts cc && CC.lastBlockAlarm cc && time.IsZero (CC.lastBlockTime cc) then
    let st := set_lastBlockAlarm false st in
    vi ← CC.valInfo cc;
    Some (st, [AlertCall (CC.name cc) (stalledMessage cc) "critical" true (Some (Val.Valcons vi))])
  else Some (st, []).

(** consecutive missed block alarms.  [statConsecutiveMiss] holds the value
    of [int(cc.statConsecutiveMiss)]. *)
Definition stepConsecutive : Step := fun st =>
  let cc := Watch.cc st in
  if negb (Watch.missedAlarm st) && CC.Alerts_ConsecutiveAlerts cc
     && (CC.Alerts_ConsecutiveMissed cc <=? CC.statConsecutiveMiss cc) then
    (* alert on missed block counter! *)
    let st := set_missedAlarm true st in
    let st := add_activeAlerts 1 st in
    vi ← CC.valInfo cc;
    let id := Val.Valcons vi +:+ "consecutive" in
    Some (st, [AlertCall (CC.name cc) (consecutiveMessage cc vi) "critical" false (Some id)])
  else if Watch.missedAlarm st && (CC.statConsecutiveMiss cc <? CC.Alerts_ConsecutiveMissed cc) then
    (* clear the alert *)
    let st := set_missedAlarm false st in
    let st := add_activeAlerts (-1) st in
    vi ← CC.valInfo cc;
    let id := Val.Valcons vi +:+ "consecutive" in
    Some (st, [AlertCall (CC.name cc) (consecutiveMessage cc vi) "critical" true (Some id)])
  else Some (st, []).

(** [100*float64(cc.valInfo.Missed)/float64(cc.valInfo.Window)] *)
Definition missedPercent (vi : ValInfo) : float :=
  PrimFloat.div (PrimFloat.mul (Go.float64_of_int 100) (Go.float64_of_int (Val.Missed vi)))
                (Go.float64_of_int (Val.Window vi)).

(** window percentage missed block alarms.  Both conditions read
    [cc.valInfo] as soon as [PercentageAlerts] is set, whatever [pctAlarm]. *)
Definition stepPercentage : Step := fun st =>
  let cc := Watch.cc st in
  if CC.Alerts_PercentageAlerts cc then
    vi ← CC.valInfo cc;
    if negb (Watch.pctAlarm st)
       && Go.float_gt (missedPercent vi) (Go.float64_of_int (CC.Alerts_Window cc)) then
      (* alert on missed block counter! *)
      let st := set_pctAlarm true st in
      let id := Val.Valcons vi +:+ "percent" in
      let st := add_activeAlerts 1 st in
      Some (st, [AlertCall (CC.name cc) (percentMessage cc vi) "critical" false (Some id)])
    else if Watch.pctAlarm st
       && Go.float_lt (missedPercent vi) (Go.float64_of_int (CC.Alerts_Window cc)) then
      (* clear the alert *)
      let st := set_pctAlarm false st in
      let id := Val.Valcons vi +:+ "percent" in
      let st := add_activeAlerts (-1) st in
      Some (st, [AlertCall (CC.name cc) (percentMessage cc vi) "critical" false (Some id)])
    else Some (st, [])
  else Some (st, []).

(** [time.Now().Sub(node.downSince).Minutes() > float64(td.NodeDownMin)] *)
Definition downTooLong (td : Config) (now : time.Time) (node : NodeConfig) : bool :=
  Go.float_gt (time.Minutes (time.Sub now (Node.downSince node)))
              (Go.float64_of_int (Cfg.NodeDownMin td)).

(** The body of the loop over [cc.Nodes]. *)
Definition stepNode (td : Config) (now : time.Time) (node : NodeConfig) : Step := fun st =>
  let cc := Watch.cc st in
  if Node.AlertIfDown node && Node.down node
     && negb (Go.mapGet (Watch.nodeAlarms st) (Node.Url node))
     && negb (time.IsZero (Node.downSince node)) && downTooLong td now node then
    (* alert on dead node *)
    let st := add_activeAlerts 1 st in
    let st := set_nodeAlarm (Node.Url node) true st in
    Some (st, [AlertCall (CC.name cc) (nodeMessage td cc node) "critical" false (Some (Node.Url node))])
  else if Go.mapGet (Watch.nodeAlarms st) (Node.Url node) && time.IsZero (Node.downSince node) then
    (* clear the alert *)
    let st := add_activeAlerts (-1) st in
    let st := set_nodeAlarm (Node.Url node) false st in
    Some (st, [AlertCall (CC.name cc) (nodeMessage td cc node) "critical" false (Some (Node.Url node))])
  else Some (st, []).

(** node down alarms *)
Fixpoint stepNodes (td : Config) (now : time.Time) (nodes : list NodeConfig) : Step :=
  match nodes with
  | [] => fun st => Some (st, [])
  | node :: rest => andThen (stepNode td now node) (stepNodes td now rest)
  end.

(** update node-down times for prometheus *)
Definition nodeDownStats (now : time.Time) (cc : ChainConfig) : list Event :=
  flat_map (fun node =>
    if Node.down node && negb (time.IsZero (Node.downSince node)) then
      [StatsSend (mkUpdate cc metricNodeDownSeconds
                    (time.Seconds (time.Sub now (Node.downSince node))) (Node.Url node))]
    else []) (CC.Nodes cc).

Definition stepProm (td : Config) (now : time.Time) : Step := fun st =>
  let cc := Watch.cc st in
  if Cfg.Prom td then
    (* raw block timer, ignoring finalized state *)
    Some (st, StatsSend (mkUpdate cc metricLastBlockSecondsNotFinal
                           (time.Seconds (time.Sub now (CC.lastBlockTime cc))) "")
              :: nodeDownStats now cc)
  else Some (st, []).

(** One pass of the second [for] loop of [watch], after its sleep.  The
    reads of [time.Now()] within one pass are taken at the same instant. *)
Definition tick (td : Config) (now : time.Time) : Step :=
  andThen stepNoNodes
    (andThen (stepStalled now)
       (andThen stepConsecutive
          (andThen stepPercentage
             (andThen (fun st => stepNodes td now (CC.Nodes (Watch.cc st)) st)
                (stepProm td now))))).

(** Between two passes the other goroutines rewrite the statistics of the
    chain; [lastBlockAlarm] and [activeAlerts] are written by [watch] only
    and keep the monitor's values. *)
Definition observe (sample : ChainConfig) (st : Watch.State) : Watch.State :=
  set_cc (with_owned (CC.lastBlockAlarm (Watch.cc st)) (CC.activeAlerts (Watch.cc st)) sample) st.

(** A finite prefix of the second loop: one sample of clock and chain
    statistics per pass; the result lists what each pass emitted. *)
Fixpoint ticks (td : Config) (samples : list (time.Time * ChainConfig)) (st : Watch.State)
    : option (Watch.State * list (list Event)) :=
  match samples with
  | [] => Some (st, [])
  | (now, sample) :: rest =>
      '(st1, es) ← tick td now (observe sample st);
      '(st2, ess) ← ticks td rest st1;
      Some (st2, es :: ess)
  end.

(** wait until we have a moniker *)
Definition connected (cc : ChainConfig) : bool :=
  match CC.valInfo cc with
  | None => false
  | Some vi => negb (String.eqb (Val.Moniker vi) "not connected")
  end.

(** The body of the first loop when it does not [break]. *)
Definition waitPass : Step := fun st =>
  let cc := Watch.cc st in
  if CC.Alerts_AlertIfNoServers cc && negb (Watch.noNodes st) && CC.noNodes cc then
    let st := set_noNodes true st in
    vi ← CC.valInfo cc;
    Some (st, [AlertCall (CC.name cc) (noNodesMessage cc) "critical" false (Some (Val.Valcons vi))])
  else Some (st, []).

(** initial stat creation for nodes *)
Definition initialStats (td : Config) (cc : ChainConfig) : list Event :=
  if Cfg.Prom td then
    map (fun node => StatsSend (mkUpdate cc metricNodeDownSeconds
                                  (Go.float64_of_int 0) (Node.Url node))) (CC.Nodes cc)
  else [].

(** The variables of [watch] at its entry. *)
Definition startWatch (cc : ChainConfig) : Watch.State :=
  {| Watch.missedAlarm := false; Watch.pctAlarm := false; Watch.noNodes := false;
     Watch.nodeAlarms := ∅; Watch.cc := cc |}.

(** A finite prefix of [watch]: the first loop consumes samples until one
    shows a moniker, then the second loop takes over. *)
Fixpoint watchFrom (td : Config) (samples : list (time.Time * ChainConfig)) (st : Watch.State)
    : option (Watch.State * list (list Event)) :=
  match samples with
  | [] => Some (st, [])
  | (now, sample) :: rest =>
      let st0 := observe sample st in
      if connected (Watch.cc st0) then
        '(st1, ess) ← ticks td rest st0;
        Some (st1, initialStats td (Watch.cc st0) :: ess)
      else
        '(st1, es) ← waitPass st0;
        '(st2, ess) ← watchFrom td rest st1;
        Some (st2, es :: ess)
  end.

Definition watch (td : Config) (cc : ChainConfig) (samples : list (time.Time * ChainConfig))
    : option (Watch.State * list (list Event)) :=
  watchFrom td samples (startWatch cc).

(** Carrying the [td.alert] calls of a trace out on the package state. *)
Definition performEvent (td : Config) (e : Event) (w : World) : option World :=
  match e with
  | AlertCall chainName message severity resolved id =>
      alert td chainName message severity resolved id w
  | StatsSend _ => Some w
  end.

Fixpoint performEvents (td : Config) (es : list Event) (w : World) : option World :=
  match es with
  | [] => Some w
  | e :: rest => w1 ← performEvent td e w; performEvents td rest w1
  end.

(** ** Notions the statements are phrased in *)

(** [active dest text w]: the text is marked for the destination. *)
Definition active (dest : notifyDest) (text : string) (w : World) : bool :=
  Go.mapGet (whichMapOf dest w) text.

(** The three de-duplication maps together. *)
Definition dedupOf (w : World) : gmap string bool * gmap string bool * gmap string bool :=
  (sentPdAlarms w, sentTgAlarms w, sentDAlarms w).

(** The alarm texts the dashboard registry holds for a chain ([currentAlarms[chain]],
    a nil inner map read as empty). *)
Definition alarmsOf (chain : string) (w : World) : gmap string bool :=
  default ∅ (currentAlarms w !! chain).

(** Every entry of the registry is [true]: [alert] writes no other value. *)
Definition registryClean (w : World) : Prop :=
  forall chain text, alarmsOf chain w !! text <> Some false.

Definition isCallFor (chain text : string) (e : Event) : bool :=
  match e with
  | AlertCall c m _ _ _ => bool_decide (c = chain) && bool_decide (m = text)
  | StatsSend _ => false
  end.

(** The [resolved] argument of the most recent [alert] call for
    (chain, text) in a sequence of calls, oldest first. *)
Fixpoint lastResolved (chain text : string) (calls : list Event) : option bool :=
  match calls with
  | [] => None
  | e :: rest =>
      match lastResolved chain text rest with
      | Some r => Some r
      | None => if isCallFor chain text e then Some (isResolve e) else None
      end
  end.

Definition callConfigured (td : Config) (e : Event) : Prop :=
  match e with
  | AlertCall c _ _ _ _ => is_Some (Cfg.Chains td !! c)
  | StatsSend _ => True
  end.

(** What a per-sink wrapper owes its caller, given the enable flag it reads,
    the destination it de-duplicates on and its result on [msg] in [w]. *)
Definition sinkContract (enabled : bool) (dest : notifyDest)
    (result : option error * World) (msg : alertMsg) (w : World) : Prop :=
  if enabled then
    let decided := shouldNotify msg dest w in
    (* whatever the transport answers, the marks are those [shouldNotify] left *)
    dedupOf result.2 = dedupOf decided.2
    (* a suppressed alert ends the call, with no error *)
    /\ (decided.1 = false -> result = (None, decided.2))
    (* nothing goes on the wire unless [shouldNotify] said so *)
    /\ (wire result.2 <> wire w -> decided.1 = true)
  else result = (None, w).

(** One line of the dashboard text. *)
Definition oneLine (k : string) : string := glyph +:+ k +:+ Go.newline.

Fixpoint joinLines (ls : list string) : string :=
  match ls with
  | [] => ""
  | x :: rest => x +:+ joinLines rest
  end.

(** Node URLs the monitor holds alarmed. *)
Definition raisedNodes (m : gmap string bool) : Z :=
  Z.of_nat (size (filter (fun kv : string * bool => kv.2 = true) m)).

(** How many alarms of the consecutive-miss, percentage and node-down kinds
    the monitor holds raised. *)
Definition raised (st : Watch.State) : Z :=
  Z.b2z (Watch.missedAlarm st) + Z.b2z (Watch.pctAlarm st) + raisedNodes (Watch.nodeAlarms st).

Definition activeAlertsOf (st : Watch.State) : Z := CC.activeAlerts (Watch.cc st).

(** A block of the loop leaves [activeAlerts] in range and moved by exactly
    the change in the number of raised alarms of the three counted kinds. *)
Definition tracks (st st' : Watch.State) : Prop :=
  Go.in_int (activeAlertsOf st')
  /\ activeAlertsOf st' = Go.wrap_int (activeAlertsOf st + (raised st' - raised st)).

(** A block writes no field of the chain other than the two [watch] owns. *)
Definition sameChain (st st' : Watch.State) : Prop :=
  exists alarm active, Watch.cc st' = with_owned alarm active (Watch.cc st).

(** The consecutive-miss condition in the words of the specification (§4.3):
    trigger when the counter is at or above the threshold and the alarm is
    not yet raised, clear when the counter drops below the threshold and the
    alarm is raised.  The result is the alarm flag after the pass and the
    [resolved] argument of the alert call of the pass, if there is one. *)
Definition specConsecutivePass (enabled : bool) (threshold : Z) (alarm : bool) (counter : Z)
    : bool * option bool :=
  if negb alarm && enabled && (threshold <=? counter) then (true, Some false)
  else if alarm && (counter <? threshold) then (false, Some true)
  else (alarm, None).

Fixpoint specConsecutive (enabled : bool) (threshold : Z) (alarm : bool) (counters : list Z)
    : bool * list (option bool) :=
  match counters with
  | [] => (alarm, [])
  | n :: rest =>
      let p := specConsecutivePass enabled threshold alarm n in
      let r := specConsecutive enabled threshold p.1 rest in
      (r.1, p.2 :: r.2)
  end.

(** The alert call of the consecutive-miss block for a given [resolved]. *)
Definition consecutiveCall (cc : ChainConfig) (vi : ValInfo) (resolved : bool) : Event :=
  AlertCall (CC.name cc) (consecutiveMessage cc vi) "critical" resolved
    (Some (Val.Valcons vi +:+ "consecutive")).

Definition consecutiveCalls (cc : ChainConfig) (vi : ValInfo) (o : option bool) : list Event :=
  match o with
  | Some resolved => [consecutiveCall cc vi resolved]
  | None => []
  end.

(** No node is held alarmed. *)
Definition noNodeAlarm (st : Watch.State) : Prop :=
  forall url, Go.mapGet (Watch.nodeAlarms st) url = false.

(** The sample of chain [c] whose consecutive-miss counter reads [miss]. *)
Definition withMiss (c : ChainConfig) (miss : Z) : ChainConfig :=
  {| CC.name := CC.name c; CC.ChainId := CC.ChainId c; CC.ValAddress := CC.ValAddress c;
     CC.Alerts_AlertIfNoServers := CC.Alerts_AlertIfNoServers c;
     CC.Alerts_StalledAlerts := CC.Alerts_StalledAlerts c;
     CC.Alerts_Stalled := CC.Alerts_Stalled c;
     CC.Alerts_ConsecutiveAlerts := CC.Alerts_ConsecutiveAlerts c;
     CC.Alerts_ConsecutiveMissed := CC.Alerts_ConsecutiveMissed c;
     CC.Alerts_PercentageAlerts := CC.Alerts_PercentageAlerts c;
     CC.Alerts_Window := CC.Alerts_Window c;
     CC.Alerts_PagerdutyAlerts := CC.Alerts_PagerdutyAlerts c;
     CC.Alerts_DiscordAlerts := CC.Alerts_DiscordAlerts c;
     CC.Alerts_TelegramAlerts := CC.Alerts_TelegramAlerts c;
     CC.valInfo := CC.valInfo c; CC.noNodes := CC.noNodes c;
     CC.lastBlockAlarm := CC.lastBlockAlarm c;
     CC.lastBlockTime := CC.lastBlockTime c;
     CC.statConsecutiveMiss := miss;
     CC.activeAlerts := CC.activeAlerts c;
     CC.Nodes := CC.Nodes c |}.

(** One pass per counter value, at the given instants. *)
Definition feedCounters (c : ChainConfig) (passes : list (time.Time * Z))
    : list (time.Time * ChainConfig) :=
  map (fun p => (p.1, withMiss c p.2)) passes.

(** Only the consecutive-miss alarm is switched on for the chain. *)
Definition onlyConsecutive (c : ChainConfig) : Prop :=
  CC.Alerts_AlertIfNoServers c = false
  /\ CC.Alerts_StalledAlerts c = false
  /\ CC.Alerts_PercentageAlerts c = false
  /\ Forall (fun node => Node.AlertIfDown node = false) (CC.Nodes c).

(** No de-duplication map stores [false]: [shouldNotify] only writes [true]
    or deletes. *)
Definition marksClean (w : World) : Prop :=
  forall dest text, whichMapOf dest w !! text <> Some false.

(** A sequence of [shouldNotify] calls, oldest first, with what each
    returned. *)
Fixpoint notifyAll (calls : list (alertMsg * notifyDest)) (w : World) : list bool * World :=
  match calls with
  | [] => ([], w)
  | c :: rest =>
      let r := shouldNotify c.1 c.2 w in
      let rs := notifyAll rest r.2 in
      (r.1 :: rs.1, rs.2)
  end.

(** The call is a resolution for (text, dest). *)
Definition resolves (text : string) (dest : notifyDest) (c : alertMsg * notifyDest) : Prop :=
  Msg.message c.1 = text /\ c.2 = dest /\ Msg.resolved c.1 = true.

(** What identifies a queued alert: chain, text and resolved flag. *)
Definition queued (m : alertMsg) : string * string * bool :=
  (Msg.chain m, Msg.message m, Msg.resolved m).

Definition callOf (e : Event) : option (string * string * bool) :=
  match e with
  | AlertCall c m _ r _ => Some (c, m, r)
  | StatsSend _ => None
  end.

(** The routing key of the PagerDuty documentation that [notifyPagerduty]
    refuses to use. *)
Definition exampleKey : string := "aaaaaaaaaaaabbbbbbbbbbbbbcccccccccccc".

(** A block that, run in [st], emits nothing and leaves [st] as it is. *)
Definition silent (f : Step) (st : Watch.State) : Prop := f st = Some (st, []).

(** Of the chain record, at most [activeAlerts] differs. *)
Definition onlyActive (st st' : Watch.State) : Prop :=
  exists active, Watch.cc st' = with_owned (CC.lastBlockAlarm (Watch.cc st)) active (Watch.cc st).

(** The URLs of the configured nodes. *)
Definition nodeUrls (cc : ChainConfig) : list string := Node.Url <$> CC.Nodes cc.

(** An [alert] call for the given chain with severity critical and an
    explicit id. *)
Definition callShape (name : string) (e : Event) : Prop :=
  exists text resolved id, e = AlertCall name text "critical" resolved (Some id).

(** The sends on [td.statsChan] among the events of a pass. *)
Definition statsSends (es : list Event) : list Event :=
  filter (fun e => isAlertCall e = false) es.

(** The nodes a pass reports a down time for. *)
Definition reportedDown (cc : ChainConfig) : list NodeConfig :=
  filter (fun node => Node.down node && negb (time.IsZero (Node.downSince node)) = true)
    (CC.Nodes cc).

(** The last alert call decided among the passes of a run of the
    consecutive-miss condition, if any. *)
Fixpoint lastSome (os : list (option bool)) : option bool :=
  match os with
  | [] => None
  | o :: rest =>
      match lastSome rest with
      | Some r => Some r
      | None => o
      end
  end.

(** The resolved flags of successive calls alternate, starting with [next]. *)
Fixpoint alternates (next : bool) (rs : list bool) : Prop :=
  match rs with
  | [] => True
  | r :: rest => r = next /\ alternates (negb next) rest
  end.

(** ** Concrete scenarios used to exercise the statements *)

Module Scenario.

Definition vi0 : ValInfo :=
  {| Val.Moniker := "val"; Val.Valcons := "cons1"; Val.Missed := 0; Val.Window := 100 |}.

Definition node0 : NodeConfig :=
  {| Node.Url := "tcp://n1:26657"; Node.AlertIfDown := true; Node.down := false;
     Node.downSince := 0 |}.

(** A chain with every alarm kind enabled: stall after 10 minutes, 5
    consecutive misses, more than 5% of the window. *)
Definition cc0 : ChainConfig :=
  {| CC.name := "chainA"; CC.ChainId := "a-1"; CC.ValAddress := "addr";
     CC.Alerts_AlertIfNoServers := true;
     CC.Alerts_StalledAlerts := true; CC.Alerts_Stalled := 10;
     CC.Alerts_ConsecutiveAlerts := true; CC.Alerts_ConsecutiveMissed := 5;
     CC.Alerts_PercentageAlerts := true; CC.Alerts_Window := 5;
     CC.Alerts_PagerdutyAlerts := true; CC.Alerts_DiscordAlerts := true;
     CC.Alerts_TelegramAlerts := true;
     CC.valInfo := Some vi0; CC.noNodes := false; CC.lastBlockAlarm := false;
     CC.lastBlockTime := 0; CC.statConsecutiveMiss := 0; CC.activeAlerts := 0;
     CC.Nodes := [node0] |}.

(** The same chain with only the consecutive-miss alarm enabled. *)
Definition ccConsecutive : ChainConfig :=
  {| CC.name := "chainA"; CC.ChainId := "a-1"; CC.ValAddress := "addr";
     CC.Alerts_AlertIfNoServers := false;
     CC.Alerts_StalledAlerts := false; CC.Alerts_Stalled := 10;
     CC.Alerts_ConsecutiveAlerts := true; CC.Alerts_ConsecutiveMissed := 5;
     CC.Alerts_PercentageAlerts := false; CC.Alerts_Window := 5;
     CC.Alerts_PagerdutyAlerts := true; CC.Alerts_DiscordAlerts := true;
     CC.Alerts_TelegramAlerts := true;
     CC.valInfo := Some vi0; CC.noNodes := false; CC.lastBlockAlarm := false;
     CC.lastBlockTime := 0; CC.statConsecutiveMiss := 0; CC.activeAlerts := 0;
     CC.Nodes := [] |}.

Definition td0 : Config :=
  {| Cfg.HideLogs := false; Cfg.Prom := false; Cfg.NodeDownMin := 10;
     Cfg.Pagerduty_Enabled := true; Cfg.Pagerduty_ApiKey := "k";
     Cfg.Discord_Enabled := true; Cfg.Discord_Webhook := "https://hook";
     Cfg.Discord_Mentions := [];
     Cfg.Telegram_Enabled := true; Cfg.Telegram_Channel := "chan";
     Cfg.Telegram_ApiKey := "t"; Cfg.Telegram_Mentions := [];
     Cfg.Chains := {[ "chainA" := cc0 ]} |}.

Definition tdHidden : Config :=
  {| Cfg.HideLogs := true; Cfg.Prom := false; Cfg.NodeDownMin := 10;
     Cfg.Pagerduty_Enabled := true; Cfg.Pagerduty_ApiKey := "k";
     Cfg.Discord_Enabled := true; Cfg.Discord_Webhook := "https://hook";
     Cfg.Discord_Mentions := [];
     Cfg.Telegram_Enabled := true; Cfg.Telegram_Channel := "chan";
     Cfg.Telegram_ApiKey := "t"; Cfg.Telegram_Mentions := [];
     Cfg.Chains := {[ "chainA" := cc0 ]} |}.

(** A statistics sample of [c]: the fields other goroutines write. *)
Definition sample (c : ChainConfig) (noNodes : bool) (lastBlockTime : time.Time)
    (miss : Z) (vi : ValInfo) (nodes : list NodeConfig) : ChainConfig :=
  {| CC.name := CC.name c; CC.ChainId := CC.ChainId c; CC.ValAddress := CC.ValAddress c;
     CC.Alerts_AlertIfNoServers := CC.Alerts_AlertIfNoServers c;
     CC.Alerts_StalledAlerts := CC.Alerts_StalledAlerts c;
     CC.Alerts_Stalled := CC.Alerts_Stalled c;
     CC.Alerts_ConsecutiveAlerts := CC.Alerts_ConsecutiveAlerts c;
     CC.Alerts_ConsecutiveMissed := CC.Alerts_ConsecutiveMissed c;
     CC.Alerts_PercentageAlerts := CC.Alerts_PercentageAlerts c;
     CC.Alerts_Window := CC.Alerts_Window c;
     CC.Alerts_PagerdutyAlerts := CC.Alerts_PagerdutyAlerts c;
     CC.Alerts_DiscordAlerts := CC.Alerts_DiscordAlerts c;
     CC.Alerts_TelegramAlerts := CC.Alerts_TelegramAlerts c;
     CC.valInfo := Some vi; CC.noNodes := noNodes;
     CC.lastBlockAlarm := CC.lastBlockAlarm c;
     CC.lastBlockTime := lastBlockTime;
     CC.statConsecutiveMiss := miss;
     CC.activeAlerts := CC.activeAlerts c;
     CC.Nodes := nodes |}.

Definition msg0 (resolved : bool) : alertMsg :=
  {| Msg.pd := true; Msg.disc := true; Msg.tg := true;
     Msg.severity := "critical"; Msg.resolved := resolved; Msg.chain := "chainA";
     Msg.message := "val has missed 5 blocks on a-1"; Msg.uniqueId := "cons1consecutive";
     Msg.key := "k"; Msg.tgChannel := "chan"; Msg.tgKey := "t"; Msg.tgMentions := "";
     Msg.discHook := "https://hook"; Msg.discMentions := "" |}.

(** The same alert with every sink switched off. *)
Definition msgOff : alertMsg :=
  {| Msg.pd := false; Msg.disc := false; Msg.tg := false;
     Msg.severity := "critical"; Msg.resolved := false; Msg.chain := "chainA";
     Msg.message := "val has missed 5 blocks on a-1"; Msg.uniqueId := "cons1consecutive";
     Msg.key := "k"; Msg.tgChannel := "chan"; Msg.tgKey := "t"; Msg.tgMentions := "";
     Msg.discHook := "https://hook"; Msg.discMentions := "" |}.

(** Transports on which every delivery fails. *)
Definition netDown : Net :=
  {| MarshalIndent := fun _ => inl "{}";
     NewRequest := fun _ _ => None;
     Do := fun _ _ => inr "connection refused";
     NewBotAPI := fun _ => None;
     Send := fun _ _ => Some "connection refused";
     ManageEventWithContext := fun _ => Some "connection refused" |}.

(** An instant some time after the zero instant, in nanoseconds. *)
Definition t0 : time.Time := 1000 * time.Minute.

(** The validator with 10 of the last 100 blocks missed. *)
Definition viMissing : ValInfo :=
  {| Val.Moniker := "val"; Val.Valcons := "cons1"; Val.Missed := 10; Val.Window := 100 |}.

(** The node of [cc0], down for 11 minutes at [t0]. *)
Definition nodeDown : NodeConfig :=
  {| Node.Url := "tcp://n1:26657"; Node.AlertIfDown := true; Node.down := true;
     Node.downSince := t0 - 11 * time.Minute |}.

(** Pass 1: more than 5% of the window missed and the node down for 11
    minutes.  Pass 2, two seconds later: no block missed, the node back up
    with its down-since timestamp reset. *)
Definition degradedThenRecovered : list (time.Time * ChainConfig) :=
  [ (t0, sample cc0 false t0 0 viMissing [nodeDown]);
    (t0 + 2 * time.Second, sample cc0 false (t0 + 2 * time.Second) 0 vi0 [node0]) ].

(** Pass 1: no RPC endpoint reachable.  Pass 2: endpoints back, but the last
    block is 11 minutes old. *)
Definition noRpcThenStalled : list (time.Time * ChainConfig) :=
  [ (t0, sample cc0 true t0 0 vi0 [node0]);
    (t0 + 11 * time.Minute, sample cc0 false t0 0 vi0 [node0]) ].

(** [c] before the validator record is known, with or without a reachable
    RPC endpoint. *)
Definition unconnected (c : ChainConfig) (noNodes : bool) : ChainConfig :=
  {| CC.name := CC.name c; CC.ChainId := CC.ChainId c; CC.ValAddress := CC.ValAddress c;
     CC.Alerts_AlertIfNoServers := CC.Alerts_AlertIfNoServers c;
     CC.Alerts_StalledAlerts := CC.Alerts_StalledAlerts c;
     CC.Alerts_Stalled := CC.Alerts_Stalled c;
     CC.Alerts_ConsecutiveAlerts := CC.Alerts_ConsecutiveAlerts c;
     CC.Alerts_ConsecutiveMissed := CC.Alerts_ConsecutiveMissed c;
     CC.Alerts_PercentageAlerts := CC.Alerts_PercentageAlerts c;
     CC.Alerts_Window := CC.Alerts_Window c;
     CC.Alerts_PagerdutyAlerts := CC.Alerts_PagerdutyAlerts c;
     CC.Alerts_DiscordAlerts := CC.Alerts_DiscordAlerts c;
     CC.Alerts_TelegramAlerts := CC.Alerts_TelegramAlerts c;
     CC.valInfo := None; CC.noNodes := noNodes;
     CC.lastBlockAlarm := CC.lastBlockAlarm c;
     CC.lastBlockTime := CC.lastBlockTime c;
     CC.statConsecutiveMiss := CC.statConsecutiveMiss c;
     CC.activeAlerts := CC.activeAlerts c;
     CC.Nodes := CC.Nodes c |}.

(** The registry after one trigger for chainA. *)
Definition worldOneAlarm : World :=
  default emptyWorld
    (alert td0 "chainA" "val has missed 5 blocks on a-1" "critical" false None emptyWorld).

(** The iteration order that lists the keys as the map stores them. *)
Definition storedOrder (m : gmap string bool) : list string := mapKeys m.

(** Transports on which the webhook answers 500 and everything else works. *)
Definition netHttp500 : Net :=
  {| MarshalIndent := fun _ => inl "{}";
     NewRequest := fun _ _ => None;
     Do := fun _ _ => inl 500;
     NewBotAPI := fun _ => None;
     Send := fun _ _ => None;
     ManageEventWithContext := fun _ => None |}.

(** [msg0] routed with the example PagerDuty key. *)
Definition msgExampleKey : alertMsg :=
  {| Msg.pd := true; Msg.disc := true; Msg.tg := true;
     Msg.severity := "critical"; Msg.resolved := false; Msg.chain := "chainA";
     Msg.message := "val has missed 5 blocks on a-1"; Msg.uniqueId := "cons1consecutive";
     Msg.key := exampleKey; Msg.tgChannel := "chan"; Msg.tgKey := "t"; Msg.tgMentions := "";
     Msg.discHook := "https://hook"; Msg.discMentions := "" |}.

(** A validator record read before any block of the window was seen. *)
Definition viEmptyWindow : ValInfo :=
  {| Val.Moniker := "val"; Val.Valcons := "cons1"; Val.Missed := 0; Val.Window := 0 |}.

End Scenario.

(** * Properties *)

(** ** The de-duplication registry *)

Section Dedup.

Implicit Types (msg : alertMsg) (dest : notifyDest) (w : World) (m : gmap string bool).

Lemma whichMapOf_storeMap dest dest' m w :
  whichMapOf dest' (storeMap dest m w) = if decide (dest = dest') then m else whichMapOf dest' w.
Proof. by destruct dest, dest'. Qed.

Lemma whichMapOf_l dest line w : whichMapOf dest (l line w) = whichMapOf dest w.
Proof. by destruct dest. Qed.

Lemma mapGet_insert m k k' b :
  Go.mapGet (<[k := b]> m) k' = if decide (k = k') then b else Go.mapGet m k'.
Proof. unfold Go.mapGet. rewrite lookup_insert. by case_decide. Qed.

Lemma mapGet_delete m k k' :
  Go.mapGet (delete k m) k' = if decide (k = k') then false else Go.mapGet m k'.
Proof. unfold Go.mapGet. rewrite lookup_delete. by case_decide. Qed.

(** The three paths of [shouldNotify], by what they return and how they
    leave the selected map. *)
Lemma shouldNotify_suppressed msg dest w :
  active dest (Msg.message msg) w = true -> Msg.resolved msg = false ->
  shouldNotify msg dest w = (false, w).
Proof. unfold active, shouldNotify. by intros -> ->. Qed.

Lemma shouldNotify_cleared msg dest w :
  active dest (Msg.message msg) w = true -> Msg.resolved msg = true ->
  (shouldNotify msg dest w).1 = true
  /\ whichMapOf dest (shouldNotify msg dest w).2 = delete (Msg.message msg) (whichMapOf dest w).
Proof.
  unfold active, shouldNotify. intros -> ->. simpl. split; [done|].
  rewrite whichMapOf_l, whichMapOf_storeMap. by case_decide.
Qed.

Lemma shouldNotify_marked msg dest w :
  active dest (Msg.message msg) w = false ->
  (shouldNotify msg dest w).1 = true
  /\ whichMapOf dest (shouldNotify msg dest w).2 = <[Msg.message msg := true]> (whichMapOf dest w).
Proof.
  unfold active, shouldNotify. intros ->. simpl. split; [done|].
  rewrite whichMapOf_l, whichMapOf_storeMap. by case_decide.
Qed.

Lemma active_after_marked msg dest w :
  active dest (Msg.message msg) w = false ->
  active dest (Msg.message msg) (shouldNotify msg dest w).2 = true.
Proof.
  intros H. unfold active. destruct (shouldNotify_marked _ _ _ H) as [_ ->].
  rewrite mapGet_insert. by case_decide.
Qed.

Lemma active_after_cleared msg dest w :
  active dest (Msg.message msg) w = true -> Msg.resolved msg = true ->
  active dest (Msg.message msg) (shouldNotify msg dest w).2 = false.
Proof.
  intros H R. unfold active. destruct (shouldNotify_cleared _ _ _ H R) as [_ ->].
  rewrite mapGet_delete. by case_decide.
Qed.

(** The maps of the other destinations, the dashboard registry, the alert
    queue and the wire are out of reach of [shouldNotify]. *)
Lemma shouldNotify_frame msg dest w :
  let w' := (shouldNotify msg dest w).2 in
  (forall dest', dest <> dest' -> whichMapOf dest' w' = whichMapOf dest' w)
  /\ currentAlarms w' = currentAlarms w /\ alertChan w' = alertChan w /\ wire w' = wire w.
Proof.
  unfold shouldNotify.
  destruct (Go.mapGet _ _), (Msg.resolved msg); simpl; (split; [|done]);
    intros dest' Hne; try done;
    rewrite whichMapOf_l, whichMapOf_storeMap; by case_decide.
Qed.

End Dedup.

(** C3. From a state in which the message text is not marked active for the
    destination, two calls of [shouldNotify] with resolved = false and the
    same text, with nothing in between, return [true] and then [false]. *)
Theorem shouldNotify_trigger_twice (msg1 msg2 : alertMsg) (dest : notifyDest) (w : World) :
  active dest (Msg.message msg1) w = false ->
  Msg.message msg2 = Msg.message msg1 ->
  Msg.resolved msg1 = false -> Msg.resolved msg2 = false ->
  (shouldNotify msg1 dest w).1 = true
  /\ (shouldNotify msg2 dest (shouldNotify msg1 dest w).2).1 = false.
Proof.
  intros Hfresh Hsame _ R2.
  split; [by apply shouldNotify_marked|].
  rewrite shouldNotify_suppressed; [done | | done].
  rewrite Hsame. by apply active_after_marked.
Qed.

Lemma shouldNotify_trigger_twice_witness :
  (shouldNotify (Scenario.msg0 false) pd emptyWorld).1 = true
  /\ (shouldNotify (Scenario.msg0 false) pd
        (shouldNotify (Scenario.msg0 false) pd emptyWorld).2).1 = false.
Proof.
  apply (shouldNotify_trigger_twice (Scenario.msg0 false) (Scenario.msg0 false) pd emptyWorld);
    reflexivity.
Defined.

(** C2. What the code does on trigger, resolve, resolve for a text that is
    not marked at the start: the three calls return [true]; the mark is gone
    after the first resolution; the second resolution finds no mark, takes
    the new-alarm path and leaves the text marked active, so a trigger that
    follows is suppressed. *)
Theorem shouldNotify_second_resolution_marks (trig res : alertMsg) (dest : notifyDest) (w : World) :
  active dest (Msg.message trig) w = false ->
  Msg.message res = Msg.message trig ->
  Msg.resolved trig = false -> Msg.resolved res = true ->
  let w1 := (shouldNotify trig dest w).2 in
  let w2 := (shouldNotify res dest w1).2 in
  let w3 := (shouldNotify res dest w2).2 in
  (shouldNotify trig dest w).1 = true
  /\ (shouldNotify res dest w1).1 = true
  /\ (shouldNotify res dest w2).1 = true
  /\ active dest (Msg.message trig) w2 = false
  /\ active dest (Msg.message trig) w3 = true
  /\ shouldNotify trig dest w3 = (false, w3).
Proof.
  intros Hfresh Hsame Rt Rr w1 w2 w3.
  assert (H1 : active dest (Msg.message res) w1 = true)
    by (rewrite Hsame; by apply active_after_marked).
  assert (H2 : active dest (Msg.message res) w2 = false)
    by (by apply active_after_cleared).
  assert (H3 : active dest (Msg.message res) w3 = true)
    by (by apply active_after_marked).
  split; [by apply shouldNotify_marked|].
  split; [by apply shouldNotify_cleared|].
  split; [by apply shouldNotify_marked|].
  rewrite <- Hsame. split; [done|]. split; [done|].
  apply shouldNotify_suppressed; [by rewrite <- Hsame | done].
Qed.

Lemma shouldNotify_second_resolution_marks_witness :
  let trig := Scenario.msg0 false in
  let res := Scenario.msg0 true in
  let w1 := (shouldNotify trig pd emptyWorld).2 in
  let w2 := (shouldNotify res pd w1).2 in
  let w3 := (shouldNotify res pd w2).2 in
  (shouldNotify trig pd emptyWorld).1 = true
  /\ (shouldNotify res pd w1).1 = true
  /\ (shouldNotify res pd w2).1 = true
  /\ active pd (Msg.message trig) w2 = false
  /\ active pd (Msg.message trig) w3 = true
  /\ shouldNotify trig pd w3 = (false, w3).
Proof.
  apply (shouldNotify_second_resolution_marks (Scenario.msg0 false) (Scenario.msg0 true)
           pd emptyWorld); reflexivity.
Defined.

(** C4. A call with resolved = true for a text that is not marked active for
    the destination returns [true] and marks the text active; a call with
    resolved = false for the same text and destination that follows returns
    [false] and changes nothing. *)
Theorem shouldNotify_unmatched_resolution_marks (res trig : alertMsg) (dest : notifyDest) (w : World) :
  active dest (Msg.message res) w = false ->
  Msg.resolved res = true ->
  Msg.message trig = Msg.message res -> Msg.resolved trig = false ->
  let w1 := (shouldNotify res dest w).2 in
  (shouldNotify res dest w).1 = true
  /\ active dest (Msg.message res) w1 = true
  /\ shouldNotify trig dest w1 = (false, w1).
Proof.
  intros Hfresh _ Hsame Rt w1.
  split; [by apply shouldNotify_marked|].
  assert (H1 : active dest (Msg.message res) w1 = true) by (by apply active_after_marked).
  split; [done|].
  apply shouldNotify_suppressed; [by rewrite Hsame | done].
Qed.

Lemma shouldNotify_unmatched_resolution_marks_witness :
  let w1 := (shouldNotify (Scenario.msg0 true) tg emptyWorld).2 in
  (shouldNotify (Scenario.msg0 true) tg emptyWorld).1 = true
  /\ active tg (Msg.message (Scenario.msg0 true)) w1 = true
  /\ shouldNotify (Scenario.msg0 false) tg w1 = (false, w1).
Proof.
  apply (shouldNotify_unmatched_resolution_marks (Scenario.msg0 true) (Scenario.msg0 false)
           tg emptyWorld); reflexivity.
Defined.

(** C8. A call of [shouldNotify] for one destination leaves the map of every
    other destination as it was: a call for the paging destination changes
    neither the chat-bot map nor the webhook map, and the same holds from
    each of the other two. *)
Theorem shouldNotify_other_destinations (msg : alertMsg) (dest dest' : notifyDest) (w : World) :
  dest <> dest' ->
  whichMapOf dest' (shouldNotify msg dest w).2 = whichMapOf dest' w
  /\ forall text, active dest' text (shouldNotify msg dest w).2 = active dest' text w.
Proof.
  intros Hne. destruct (shouldNotify_frame msg dest w) as [H _].
  specialize (H dest' Hne). split; [exact H|].
  intros text. unfold active. by rewrite H.
Qed.

Lemma shouldNotify_other_destinations_witness :
  whichMapOf tg (shouldNotify (Scenario.msg0 false) pd emptyWorld).2 = whichMapOf tg emptyWorld
  /\ forall text, active tg text (shouldNotify (Scenario.msg0 false) pd emptyWorld).2
                  = active tg text emptyWorld.
Proof.
  apply (shouldNotify_other_destinations (Scenario.msg0 false) pd tg emptyWorld).
  discriminate.
Defined.

(** ** The per-sink wrappers *)

Lemma dedupOf_l line w : dedupOf (l line w) = dedupOf w.
Proof. reflexivity. Qed.

Lemma dedupOf_transmit c w : dedupOf (transmit c w) = dedupOf w.
Proof. reflexivity. Qed.

Lemma shouldNotify_wire msg dest w : wire (shouldNotify msg dest w).2 = wire w.
Proof. by destruct (shouldNotify_frame msg dest w) as (_ & _ & _ & H). Qed.

Ltac sink_cases :=
  repeat match goal with
    | |- context [match ?x with _ => _ end] => destruct x eqn:?; simpl
    end;
  rewrite ?dedupOf_l, ?dedupOf_transmit; try done.

Lemma notifyDiscord_contract net msg w :
  sinkContract (Msg.disc msg) di (notifyDiscord net msg w) msg w.
Proof.
  unfold sinkContract, notifyDiscord.
  destruct (Msg.disc msg); simpl; [|done].
  pose proof (shouldNotify_wire msg di w) as Hw.
  destruct (shouldNotify msg di w) as [ok w1]; simpl in *.
  destruct ok; simpl.
  - split; [|done]. sink_cases.
  - split; [done|]. split; [done|]. by rewrite Hw.
Qed.

Lemma notifyTg_contract net msg w :
  sinkContract (Msg.tg msg) tg (notifyTg net msg w) msg w.
Proof.
  unfold sinkContract, notifyTg.
  destruct (Msg.tg msg); simpl; [|done].
  pose proof (shouldNotify_wire msg tg w) as Hw.
  destruct (shouldNotify msg tg w) as [ok w1]; simpl in *.
  destruct ok; simpl.
  - split; [|done]. sink_cases.
  - split; [done|]. split; [done|]. by rewrite Hw.
Qed.

Lemma notifyPagerduty_contract net msg w :
  sinkContract (Msg.pd msg) pd (notifyPagerduty net msg w) msg w.
Proof.
  unfold sinkContract, notifyPagerduty.
  destruct (Msg.pd msg); simpl; [|done].
  pose proof (shouldNotify_wire msg pd w) as Hw.
  destruct (shouldNotify msg pd w) as [ok w1]; simpl in *.
  destruct ok; simpl.
  - split; [|done]. sink_cases.
  - split; [done|]. split; [done|]. by rewrite Hw.
Qed.

(** C9. Each of [notifyPagerduty], [notifyTg] and [notifyDiscord] returns no
    error and leaves the whole state, de-duplication maps included, untouched
    when the message's flag for its sink is false.  When the flag is true it
    runs [shouldNotify]: if that returns [false] the wrapper returns no error
    and sends nothing; a request reaches the wire only if it returned [true];
    and for every answer of the transport, failures included, the
    de-duplication maps are those [shouldNotify] left. *)
Theorem notify_wrappers_contract (net : Net) (msg : alertMsg) (w : World) :
  sinkContract (Msg.pd msg) pd (notifyPagerduty net msg w) msg w
  /\ sinkContract (Msg.tg msg) tg (notifyTg net msg w) msg w
  /\ sinkContract (Msg.disc msg) di (notifyDiscord net msg w) msg w.
Proof.
  split; [apply notifyPagerduty_contract|].
  split; [apply notifyTg_contract | apply notifyDiscord_contract].
Qed.

(** On transports that refuse every delivery the three wrappers report the
    failure (the webhook one after its request went out) and the alert stays
    marked on each destination. *)
Example notify_failed_delivery_keeps_mark :
  let msg := Scenario.msg0 false in
  let r1 := notifyPagerduty Scenario.netDown msg emptyWorld in
  let r2 := notifyTg Scenario.netDown msg r1.2 in
  let r3 := notifyDiscord Scenario.netDown msg r2.2 in
  r1.1 = Some "connection refused"
  /\ r2.1 = Some "connection refused"
  /\ r3.1 = Some "connection refused"
  /\ active pd (Msg.message msg) r3.2 = true
  /\ active tg (Msg.message msg) r3.2 = true
  /\ active di (Msg.message msg) r3.2 = true
  /\ length (wire r3.2) = 4%nat.
Proof. vm_compute. repeat split. Qed.

(** With every flag off nothing is read or written. *)
Example notify_disabled_is_noop (net : Net) (w : World) :
  notifyPagerduty net Scenario.msgOff w = (None, w)
  /\ notifyTg net Scenario.msgOff w = (None, w)
  /\ notifyDiscord net Scenario.msgOff w = (None, w).
Proof. done. Qed.

(** ** The dashboard registry *)

Lemma append_assoc (a b c : string) : (a +:+ b) +:+ c = a +:+ (b +:+ c).
Proof.
  induction a as [|x a IH]; [done|].
  change (String x ((a +:+ b) +:+ c) = String x (a +:+ (b +:+ c))). by rewrite IH.
Qed.

Lemma append_empty_r (a : string) : a +:+ "" = a.
Proof.
  induction a as [|x a IH]; [done|].
  change (String x (a +:+ "") = String x a). by rewrite IH.
Qed.

Lemma alarmLines_from (acc : string) (ks : list string) :
  foldl (fun result k => result +:+ (glyph +:+ k +:+ Go.newline)) acc ks
  = acc +:+ joinLines (map oneLine ks).
Proof.
  revert acc. induction ks as [|k ks IH]; intros acc; cbn [foldl map joinLines].
  - by rewrite append_empty_r.
  - rewrite IH. fold (oneLine k). by rewrite append_assoc.
Qed.

Lemma alarmLines_joinLines (ks : list string) : alarmLines ks = joinLines (map oneLine ks).
Proof. unfold alarmLines. by rewrite alarmLines_from. Qed.

Lemma elem_of_mapKeys (m : gmap string bool) (k : string) : k ∈ mapKeys m ↔ is_Some (m !! k).
Proof.
  unfold mapKeys. rewrite list_elem_of_fmap. split.
  - intros [[k' b] [-> Hin]]. apply elem_of_map_to_list in Hin. by exists b.
  - intros [b Hb]. exists (k, b). split; [done|]. by apply elem_of_map_to_list.
Qed.

Lemma length_mapKeys (m : gmap string bool) : length (mapKeys m) = size m.
Proof. unfold mapKeys. rewrite length_fmap. apply length_map_to_list. Qed.

(** C10. [getAlarms] returns the empty string whenever [td.HideLogs] is set,
    whatever the registry holds.  When the flag is unset it returns, for the
    alarm texts held for the chain taken in the order [range] visits them,
    the concatenation of one line per text, each made of the alert glyph, the
    text and a newline; there are as many lines as texts held. *)
Theorem getAlarms_hidden_or_lines (rangeKeys : gmap string bool -> list string)
    (td : Config) (chain : string) (w : World) :
  (forall m, rangeKeys m ≡ₚ mapKeys m) ->
  (Cfg.HideLogs td = true -> getAlarms rangeKeys td chain w = "")
  /\ (Cfg.HideLogs td = false ->
      exists ks, ks ≡ₚ mapKeys (alarmsOf chain w)
        /\ length ks = size (alarmsOf chain w)
        /\ getAlarms rangeKeys td chain w = joinLines (map oneLine ks)).
Proof.
  intros Hrange. unfold getAlarms, alarmsOf. split; intros ->; [done|].
  destruct (currentAlarms w !! chain) as [alarms|]; simpl.
  - exists (rangeKeys alarms). split; [apply Hrange|].
    split; [by rewrite Hrange, length_mapKeys | apply alarmLines_joinLines].
  - exists []. unfold mapKeys. by rewrite map_to_list_empty.
Qed.

Lemma getAlarms_hidden_or_lines_witness :
  (Cfg.HideLogs Scenario.tdHidden = true ->
   getAlarms Scenario.storedOrder Scenario.tdHidden "chainA" Scenario.worldOneAlarm = "")
  /\ (Cfg.HideLogs Scenario.tdHidden = false ->
      exists ks, ks ≡ₚ mapKeys (alarmsOf "chainA" Scenario.worldOneAlarm)
        /\ length ks = size (alarmsOf "chainA" Scenario.worldOneAlarm)
        /\ getAlarms Scenario.storedOrder Scenario.tdHidden "chainA" Scenario.worldOneAlarm
           = joinLines (map oneLine ks)).
Proof.
  apply (getAlarms_hidden_or_lines Scenario.storedOrder Scenario.tdHidden "chainA"
           Scenario.worldOneAlarm).
  intros m. reflexivity.
Defined.

(** The same registry read with the flag unset and set. *)
Example getAlarms_one_alarm :
  getAlarms Scenario.storedOrder Scenario.td0 "chainA" Scenario.worldOneAlarm
    = "🚨 val has missed 5 blocks on a-1" +:+ Go.newline
  /\ getAlarms Scenario.storedOrder Scenario.tdHidden "chainA" Scenario.worldOneAlarm = "".
Proof. split; vm_compute; reflexivity. Qed.

(** What one [alert] call does to the registry, chain by chain. *)
Lemma alert_alarmsOf td chain text sev resolved id w w' chain' :
  alert td chain text sev resolved id w = Some w' ->
  alarmsOf chain' w' =
    if decide (chain = chain') then
      if resolved then
        if Go.mapGet (alarmsOf chain w) text then delete text (alarmsOf chain w)
        else alarmsOf chain w
      else <[text := true]> (alarmsOf chain w)
    else alarmsOf chain' w.
Proof.
  unfold alert, alarmsOf. destruct (Cfg.Chains td !! chain) as [cc|]; [|done]. simpl.
  destruct resolved; simpl.
  - destruct (Go.mapGet _ text); intros [= <-]; simpl;
      rewrite lookup_insert; by repeat case_decide.
  - intros [= <-]. simpl. rewrite lookup_insert. by repeat case_decide.
Qed.

Lemma alert_configured td chain text sev resolved id w :
  is_Some (Cfg.Chains td !! chain) -> is_Some (alert td chain text sev resolved id w).
Proof.
  intros [cc Hcc]. unfold alert. rewrite Hcc. simpl.
  destruct resolved; simpl; [destruct (Go.mapGet _ _)|]; by eexists.
Qed.

(** The entry of (chain', text') after one call. *)
Lemma alert_entry td chain text sev resolved id w w' chain' text' :
  registryClean w ->
  alert td chain text sev resolved id w = Some w' ->
  alarmsOf chain' w' !! text' =
    if bool_decide (chain = chain') && bool_decide (text = text') then
      if resolved then None else Some true
    else alarmsOf chain' w !! text'.
Proof.
  intros Hclean Halert. rewrite (alert_alarmsOf _ _ _ _ _ _ _ _ chain' Halert).
  destruct (decide (chain = chain')) as [<-|Hc].
  2: { by rewrite (bool_decide_eq_false_2 _ Hc). }
  rewrite bool_decide_eq_true_2 by done. simpl.
  specialize (Hclean chain). unfold Go.mapGet.
  destruct (decide (text = text')) as [<-|Ht].
  - rewrite bool_decide_eq_true_2 by done. specialize (Hclean text).
    destruct resolved.
    + destruct (alarmsOf chain w !! text) as [[]|] eqn:E; simpl;
        [by rewrite lookup_delete_eq | done | done].
    + by rewrite lookup_insert_eq.
  - rewrite (bool_decide_eq_false_2 _ Ht).
    destruct resolved.
    + destruct (default false (alarmsOf chain w !! text)); [|done].
      by rewrite lookup_delete_ne.
    + by rewrite lookup_insert_ne.
Qed.

Lemma alert_registryClean td chain text sev resolved id w w' :
  registryClean w -> alert td chain text sev resolved id w = Some w' -> registryClean w'.
Proof.
  intros Hclean Halert chain' text'.
  rewrite (alert_entry _ _ _ _ _ _ _ _ chain' text' Hclean Halert).
  destruct (_ && _); [by destruct resolved | apply Hclean].
Qed.

Lemma emptyWorld_registryClean : registryClean emptyWorld.
Proof. intros chain text. unfold alarmsOf. simpl. by rewrite lookup_empty. Qed.

(** The registry after a sequence of calls, from any clean registry. *)
Lemma performEvents_entry td calls : forall w w' chain text,
  registryClean w ->
  performEvents td calls w = Some w' ->
  registryClean w'
  /\ alarmsOf chain w' !! text =
       match lastResolved chain text calls with
       | Some false => Some true
       | Some true => None
       | None => alarmsOf chain w !! text
       end.
Proof.
  induction calls as [|e rest IH]; intros w w' chain text Hclean Hrun.
  - injection Hrun as <-. by split.
  - simpl in Hrun. destruct (performEvent td e w) as [w1|] eqn:He; [|done].
    simpl in Hrun.
    assert (Hclean1 : registryClean w1).
    { destruct e; simpl in He; [by eapply alert_registryClean | by injection He as <-]. }
    destruct (IH w1 w' chain text Hclean1 Hrun) as [Hclean' Hentry].
    split; [done|]. rewrite Hentry. simpl.
    destruct (lastResolved chain text rest) as [[]|]; [done | done |].
    destruct e as [c m sev r id | u]; simpl in *.
    + rewrite (alert_entry _ _ _ _ _ _ _ _ chain text Hclean He).
      destruct (_ && _); [by destruct r | done].
    + by injection He as <-.
Qed.

Lemma performEvents_configured td calls : forall w,
  Forall (callConfigured td) calls -> is_Some (performEvents td calls w).
Proof.
  induction calls as [|e rest IH]; intros w Hall; [by eexists|].
  apply Forall_cons in Hall as [He Hrest]. simpl.
  assert (is_Some (performEvent td e w)) as [w1 ->].
  { destruct e; simpl; [by apply alert_configured | by eexists]. }
  simpl. by apply IH.
Qed.

(** C5. From the empty registry of program start, every finite sequence of
    [alert] calls for configured chains runs to the end, and afterwards the
    registry holds for a chain exactly the texts whose most recent call for
    that (chain, text) had resolved = false.  In the state reached, a call
    with resolved = true for a text the chain does not hold leaves the texts
    held for every chain as they were. *)
Theorem registry_tracks_last_call (td : Config) (calls : list Event) :
  Forall (callConfigured td) calls ->
  exists w, performEvents td calls emptyWorld = Some w
    /\ (forall chain text,
          text ∈ mapKeys (alarmsOf chain w) <-> lastResolved chain text calls = Some false)
    /\ (forall chain text sev id,
          text ∉ mapKeys (alarmsOf chain w) ->
          is_Some (Cfg.Chains td !! chain) ->
          exists w', alert td chain text sev true id w = Some w'
            /\ forall chain', alarmsOf chain' w' = alarmsOf chain' w).
Proof.
  intros Hall. destruct (performEvents_configured td calls emptyWorld Hall) as [w Hw].
  exists w. split; [done|].
  split.
  - intros chain text.
    destruct (performEvents_entry td calls _ _ chain text emptyWorld_registryClean Hw)
      as [_ Hentry].
    rewrite elem_of_mapKeys, Hentry.
    replace (alarmsOf chain emptyWorld !! text) with (@None bool)
      by (unfold alarmsOf; simpl; by rewrite lookup_empty).
    destruct (lastResolved chain text calls) as [[]|]; split;
      first [done | by intros [? ?] | by eexists].
  - intros chain text sev id Hnot Hcfg.
    destruct (alert_configured td chain text sev true id w Hcfg) as [w' Hw'].
    exists w'. split; [done|]. intros chain'.
    rewrite (alert_alarmsOf _ _ _ _ _ _ _ _ chain' Hw').
    case_decide as Hc; [|done]. subst chain'.
    rewrite elem_of_mapKeys in Hnot. unfold Go.mapGet.
    destruct (alarmsOf chain w !! text) eqn:E; [|done].
    exfalso. apply Hnot. by eexists.
Qed.

Lemma registry_tracks_last_call_witness :
  exists w,
    performEvents Scenario.td0
      [AlertCall "chainA" "stalled" "critical" false None;
       AlertCall "chainA" "down" "critical" false None;
       AlertCall "chainA" "stalled" "critical" true None] emptyWorld = Some w
    /\ (forall chain text,
          text ∈ mapKeys (alarmsOf chain w) <->
          lastResolved chain text
            [AlertCall "chainA" "stalled" "critical" false None;
             AlertCall "chainA" "down" "critical" false None;
             AlertCall "chainA" "stalled" "critical" true None] = Some false)
    /\ (forall chain text sev id,
          text ∉ mapKeys (alarmsOf chain w) ->
          is_Some (Cfg.Chains Scenario.td0 !! chain) ->
          exists w', alert Scenario.td0 chain text sev true id w = Some w'
            /\ forall chain', alarmsOf chain' w' = alarmsOf chain' w).
Proof.
  apply (registry_tracks_last_call Scenario.td0).
  repeat constructor; simpl; vm_compute; eauto.
Defined.

(** ** The chain monitor *)

Lemma wrap_int_in (z : Z) : Go.in_int z -> Go.wrap_int z = z.
Proof.
  unfold Go.in_int, Go.wrap_int. intros H.
  rewrite Z.mod_small by lia. lia.
Qed.

Lemma wrap_int_range (z : Z) : Go.in_int (Go.wrap_int z).
Proof.
  unfold Go.in_int, Go.wrap_int.
  pose proof (Z.mod_pos_bound (z + 2 ^ 63) (2 ^ 64) ltac:(lia)). lia.
Qed.

Lemma wrap_int_add_l (x y : Z) : Go.wrap_int (Go.wrap_int x + y) = Go.wrap_int (x + y).
Proof.
  unfold Go.wrap_int. f_equal.
  replace ((x + 2 ^ 63) `mod` 2 ^ 64 - 2 ^ 63 + y + 2 ^ 63)
    with ((x + 2 ^ 63) `mod` 2 ^ 64 + y) by lia.
  rewrite Zplus_mod_idemp_l. f_equal. lia.
Qed.

Lemma andThen_Some (f g : Step) st st2 es :
  andThen f g st = Some (st2, es) <->
  exists st1 e1 e2, f st = Some (st1, e1) /\ g st1 = Some (st2, e2) /\ es = e1 ++ e2.
Proof.
  unfold andThen. split.
  - destruct (f st) as [[st1 e1]|]; [|done]. simpl.
    destruct (g st1) as [[st2' e2]|] eqn:Hg; [|done]. simpl.
    intros [= <- <-]. by exists st1, e1, e2.
  - intros (st1 & e1 & e2 & -> & Hg & ->). simpl. by rewrite Hg.
Qed.

Lemma tracks_refl st : Go.in_int (activeAlertsOf st) -> tracks st st.
Proof.
  intros H. split; [done|]. rewrite Z.sub_diag, Z.add_0_r. by rewrite wrap_int_in.
Qed.

Lemma tracks_trans st st1 st2 : tracks st st1 -> tracks st1 st2 -> tracks st st2.
Proof.
  intros [_ H1] [R2 H2]. split; [done|].
  rewrite H2, H1, wrap_int_add_l. f_equal. lia.
Qed.

Lemma sameChain_refl st : sameChain st st.
Proof.
  exists (CC.lastBlockAlarm (Watch.cc st)), (CC.activeAlerts (Watch.cc st)).
  by destruct (Watch.cc st).
Qed.

Lemma sameChain_trans st st1 st2 : sameChain st st1 -> sameChain st1 st2 -> sameChain st st2.
Proof.
  intros (a1 & b1 & H1) (a2 & b2 & H2). exists a2, b2. by rewrite H2, H1.
Qed.

Lemma raisedNodes_set_true (m : gmap string bool) (u : string) :
  Go.mapGet m u = false -> raisedNodes (<[u := true]> m) = raisedNodes m + 1.
Proof.
  intros Hu. unfold raisedNodes.
  rewrite map_filter_insert_True by done.
  rewrite map_size_insert_None; [lia|].
  apply map_lookup_filter_None. unfold Go.mapGet in Hu.
  destruct (m !! u) as [b|] eqn:E; [right | by left].
  intros x [= <-]. simpl in *. by subst.
Qed.

Lemma raisedNodes_set_false (m : gmap string bool) (u : string) :
  Go.mapGet m u = true -> raisedNodes (<[u := false]> m) = raisedNodes m - 1.
Proof.
  intros Hu. unfold raisedNodes, Go.mapGet in *.
  destruct (m !! u) as [[]|] eqn:E; try done.
  rewrite map_filter_insert_False by done.
  rewrite map_filter_delete.
  assert (Hin : filter (fun kv : string * bool => kv.2 = true) m !! u = Some true)
    by (by apply map_lookup_filter_Some).
  pose proof (map_size_delete u (filter (fun kv : string * bool => kv.2 = true) m)) as Hs.
  rewrite Hin in Hs. rewrite Hs.
  assert (size (filter (fun kv : string * bool => kv.2 = true) m) <> 0%nat).
  { apply map_size_non_empty_iff. intros Hempty. by rewrite Hempty, lookup_empty in Hin. }
  lia.
Qed.

Lemma tracks_same st st' :
  Go.in_int (activeAlertsOf st) ->
  activeAlertsOf st' = activeAlertsOf st -> raised st' = raised st -> tracks st st'.
Proof.
  intros Hin Ha Hr. unfold tracks. rewrite Ha, Hr, Z.sub_diag, Z.add_0_r.
  split; [done | by rewrite wrap_int_in].
Qed.

Lemma sameChain_same st st' : Watch.cc st' = Watch.cc st -> sameChain st st'.
Proof. intros H. destruct (sameChain_refl st) as (a & b & Hab). exists a, b. by rewrite H. Qed.

Ltac bool_hyps :=
  repeat match goal with
    | H : _ && _ = true |- _ => apply andb_true_iff in H; destruct H
    | H : negb _ = true |- _ => apply negb_true_iff in H
    end.

Ltac step_cases :=
  repeat match goal with
    | |- context [if ?c then _ else _] => destruct c eqn:?
    | |- context [CC.valInfo ?c ≫= _] => destruct (CC.valInfo c) as [?vi|] eqn:?; simpl
    end.

Ltac tracks_by_count :=
  unfold tracks, activeAlertsOf, raised; simpl;
  split; [apply wrap_int_range|];
  repeat match goal with
    | H : Watch.missedAlarm _ = _ |- _ => rewrite H
    | H : Watch.pctAlarm _ = _ |- _ => rewrite H
    end;
  rewrite ?raisedNodes_set_true, ?raisedNodes_set_false by done;
  f_equal; simpl; lia.

Ltac unchanged :=
  first [ by apply tracks_same | by apply sameChain_same | by eexists _, _ ].

Lemma stepNoNodes_effect st st' es :
  Go.in_int (activeAlertsOf st) -> stepNoNodes st = Some (st', es) ->
  tracks st st' /\ sameChain st st' /\ activeAlertsOf st' = activeAlertsOf st.
Proof.
  intros Hin. unfold stepNoNodes. step_cases; intros [= <- <-];
    (split; [unchanged | split; [unchanged | done]]).
Qed.

Lemma stepStalled_effect now st st' es :
  Go.in_int (activeAlertsOf st) -> stepStalled now st = Some (st', es) ->
  tracks st st' /\ sameChain st st' /\ activeAlertsOf st' = activeAlertsOf st.
Proof.
  intros Hin. unfold stepStalled. step_cases; intros [= <- <-];
    (split; [unchanged | split; [unchanged | done]]).
Qed.

Lemma stepConsecutive_effect st st' es :
  Go.in_int (activeAlertsOf st) -> stepConsecutive st = Some (st', es) ->
  tracks st st' /\ sameChain st st'.
Proof.
  intros Hin. unfold stepConsecutive. step_cases; intros [= <- <-]; bool_hyps.
  - split; [|by eexists _, _].
    tracks_by_count.
  - split; [|by eexists _, _].
    tracks_by_count.
  - split; unchanged.
Qed.

Lemma stepPercentage_effect st st' es :
  Go.in_int (activeAlertsOf st) -> stepPercentage st = Some (st', es) ->
  tracks st st' /\ sameChain st st'.
Proof.
  intros Hin. unfold stepPercentage. step_cases; intros [= <- <-]; bool_hyps.
  - split; [|by eexists _, _].
    tracks_by_count.
  - split; [|by eexists _, _].
    tracks_by_count.
  - split; unchanged.
  - split; unchanged.
Qed.

Lemma stepNode_effect td now node st st' es :
  Go.in_int (activeAlertsOf st) -> stepNode td now node st = Some (st', es) ->
  tracks st st' /\ sameChain st st'.
Proof.
  intros Hin. unfold stepNode. step_cases; intros [= <- <-]; bool_hyps.
  - split; [|by eexists _, _].
    tracks_by_count.
  - split; [|by eexists _, _].
    tracks_by_count.
  - split; unchanged.
Qed.

Lemma stepNodes_effect td now nodes : forall st st' es,
  Go.in_int (activeAlertsOf st) -> stepNodes td now nodes st = Some (st', es) ->
  tracks st st' /\ sameChain st st'.
Proof.
  induction nodes as [|node rest IH]; intros st st' es Hin; simpl.
  - intros [= <- <-]. split; unchanged.
  - rewrite andThen_Some. intros (st1 & e1 & e2 & H1 & H2 & ->).
    destruct (stepNode_effect _ _ _ _ _ _ Hin H1) as [T1 S1].
    destruct (IH _ _ _ (proj1 T1) H2) as [T2 S2].
    split; [by eapply tracks_trans | by eapply sameChain_trans].
Qed.

Lemma stepProm_effect td now st st' es :
  stepProm td now st = Some (st', es) -> st' = st /\ alertCalls es = [].
Proof.
  unfold stepProm. destruct (Cfg.Prom td); intros [= <- <-]; [|done].
  split; [done|]. unfold alertCalls. simpl. unfold nodeDownStats.
  induction (CC.Nodes (Watch.cc st)) as [|node rest IH]; [done|].
  simpl. destruct (_ && _); [|done]. simpl. exact IH.
Qed.

(** One pass of the loop. *)
Lemma tick_effect td now st st' es :
  Go.in_int (activeAlertsOf st) -> tick td now st = Some (st', es) ->
  tracks st st' /\ sameChain st st'.
Proof.
  intros Hin. unfold tick.
  rewrite andThen_Some. intros (s1 & ? & ? & H1 & H & ->).
  rewrite andThen_Some in H. destruct H as (s2 & ? & ? & H2 & H & ->).
  rewrite andThen_Some in H. destruct H as (s3 & ? & ? & H3 & H & ->).
  rewrite andThen_Some in H. destruct H as (s4 & ? & ? & H4 & H & ->).
  rewrite andThen_Some in H. destruct H as (s5 & ? & ? & H5 & H6 & ->).
  destruct (stepNoNodes_effect _ _ _ Hin H1) as (T1 & S1 & _).
  destruct (stepStalled_effect _ _ _ _ (proj1 T1) H2) as (T2 & S2 & _).
  destruct (stepConsecutive_effect _ _ _ (proj1 T2) H3) as (T3 & S3).
  destruct (stepPercentage_effect _ _ _ (proj1 T3) H4) as (T4 & S4).
  destruct (stepNodes_effect _ _ _ _ _ _ (proj1 T4) H5) as (T5 & S5).
  destruct (stepProm_effect _ _ _ _ _ H6) as [-> _].
  split.
  - eapply tracks_trans; [|exact T5]. eapply tracks_trans; [|exact T4].
    eapply tracks_trans; [|exact T3]. by eapply tracks_trans.
  - eapply sameChain_trans; [|exact S5]. eapply sameChain_trans; [|exact S4].
    eapply sameChain_trans; [|exact S3]. by eapply sameChain_trans.
Qed.

Lemma observe_counts sample st :
  activeAlertsOf (observe sample st) = activeAlertsOf st
  /\ raised (observe sample st) = raised st.
Proof. done. Qed.

Lemma tracks_observe sample st st' : tracks (observe sample st) st' -> tracks st st'.
Proof.
  unfold tracks. by destruct (observe_counts sample st) as [-> ->].
Qed.

Lemma ticks_effect td samples : forall st st' ess,
  Go.in_int (activeAlertsOf st) -> ticks td samples st = Some (st', ess) ->
  tracks st st'.
Proof.
  induction samples as [|[now sample] rest IH]; intros st st' ess Hin; simpl.
  - intros [= <- <-]. by apply tracks_refl.
  - destruct (tick td now (observe sample st)) as [[st1 es]|] eqn:Ht; [|done]. simpl.
    destruct (ticks td rest st1) as [[st2 ess']|] eqn:Hr; [|done]. simpl.
    intros [= <- <-].
    assert (Hin' : Go.in_int (activeAlertsOf (observe sample st))) by done.
    destruct (tick_effect td now _ _ _ Hin' Ht) as [T1 _].
    eapply tracks_trans; [by apply (tracks_observe sample)|].
    eapply IH; [exact (proj1 T1) | exact Hr].
Qed.

Lemma andThen_is_Some (f g : Step) st :
  is_Some (f st) -> (forall st1 e1, f st = Some (st1, e1) -> is_Some (g st1)) ->
  is_Some (andThen f g st).
Proof.
  intros [[st1 e1] Hf] Hg. destruct (Hg st1 e1 Hf) as [[st2 e2] Hg2].
  exists (st2, e1 ++ e2). apply andThen_Some. by exists st1, e1, e2.
Qed.

Lemma sameChain_valInfo st st' :
  sameChain st st' -> CC.valInfo (Watch.cc st') = CC.valInfo (Watch.cc st).
Proof. by intros (a & b & ->). Qed.

Lemma stepNodes_is_Some td now nodes : forall st, is_Some (stepNodes td now nodes st).
Proof.
  induction nodes as [|node rest IH]; intros st; simpl; [by eexists|].
  apply andThen_is_Some; [|by intros; apply IH].
  unfold stepNode. step_cases; by eexists.
Qed.

(** A pass runs to its end when the validator record is there. *)
Lemma tick_is_Some td now st :
  Go.in_int (activeAlertsOf st) -> is_Some (CC.valInfo (Watch.cc st)) ->
  is_Some (tick td now st).
Proof.
  intros Hin [vi Hvi]. unfold tick.
  apply andThen_is_Some.
  { unfold stepNoNodes. rewrite Hvi. step_cases; by eexists. }
  intros s1 ? H1. destruct (stepNoNodes_effect _ _ _ Hin H1) as (T1 & S1 & _).
  pose proof (sameChain_valInfo _ _ S1) as V1. rewrite Hvi in V1.
  apply andThen_is_Some.
  { unfold stepStalled. rewrite V1. step_cases; by eexists. }
  intros s2 ? H2. destruct (stepStalled_effect _ _ _ _ (proj1 T1) H2) as (T2 & S2 & _).
  pose proof (sameChain_valInfo _ _ S2) as V2. rewrite V1 in V2.
  apply andThen_is_Some.
  { unfold stepConsecutive. rewrite V2. step_cases; by eexists. }
  intros s3 ? H3. destruct (stepConsecutive_effect _ _ _ (proj1 T2) H3) as (T3 & S3).
  pose proof (sameChain_valInfo _ _ S3) as V3. rewrite V2 in V3.
  apply andThen_is_Some.
  { unfold stepPercentage. rewrite V3. simpl. step_cases; by eexists. }
  intros s4 ? H4.
  apply andThen_is_Some; [apply stepNodes_is_Some|].
  intros s5 ? H5. unfold stepProm. destruct (Cfg.Prom td); by eexists.
Qed.

Lemma ticks_is_Some td samples : forall st,
  Go.in_int (activeAlertsOf st) ->
  Forall (fun s : time.Time * ChainConfig => is_Some (CC.valInfo s.2)) samples ->
  is_Some (ticks td samples st).
Proof.
  induction samples as [|[now sample] rest IH]; intros st Hin Hall; simpl; [by eexists|].
  apply Forall_cons in Hall as [Hv Hrest].
  assert (Hin' : Go.in_int (activeAlertsOf (observe sample st))) by done.
  destruct (tick_is_Some td now (observe sample st) Hin' Hv) as [[st1 es] Ht].
  rewrite Ht. simpl.
  destruct (tick_effect _ _ _ _ _ Hin' Ht) as [[Hin1 _] _].
  destruct (IH st1 Hin1 Hrest) as [[st2 ess] Hr]. rewrite Hr. by eexists.
Qed.

(** The calls of the percentage and node-down blocks all carry
    resolved = false, on the clear edge as on the trigger edge. *)
Lemma percentage_and_node_calls_unresolved td now node st st' es :
  stepPercentage st = Some (st', es) \/ stepNode td now node st = Some (st', es) ->
  Forall (fun e => isResolve e = false) es.
Proof.
  unfold stepPercentage, stepNode.
  intros [H|H]; revert H; step_cases; intros [= <- <-]; by repeat constructor.
Qed.

(** The clear edges of the other three blocks carry resolved = true. *)
Lemma other_clear_calls_resolved now st st' es :
  (stepNoNodes st = Some (st', es) /\ Watch.noNodes st = true)
  \/ (stepStalled now st = Some (st', es) /\ CC.lastBlockAlarm (Watch.cc st) = true)
  \/ (stepConsecutive st = Some (st', es) /\ Watch.missedAlarm st = true) ->
  Forall (fun e => isResolve e = true) es.
Proof.
  unfold stepNoNodes, stepStalled, stepConsecutive.
  intros [[H F]|[[H F]|[H F]]]; revert H; rewrite F; simpl; rewrite ?andb_false_r; simpl;
    step_cases; intros [= <- <-]; by repeat constructor.
Qed.

(** C1. The run on which the claim fails.  Pass 1 raises the percentage and
    the node-down alarm; on pass 2 both clear predicates fire and each block
    calls [alert] once, with resolved = false: the trace of pass 2 is that of
    pass 1.  Carried out, the four calls leave both texts in the dashboard
    registry although no alarm is held any more. *)
Theorem pct_and_node_clear_call_unresolved :
  exists st w,
    ticks Scenario.td0 Scenario.degradedThenRecovered (startWatch Scenario.cc0)
      = Some (st,
          [ [ AlertCall "chainA" "val has missed > 5% of the slashing window's blocks on a-1"
                "critical" false (Some "cons1percent");
              AlertCall "chainA" "RPC node tcp://n1:26657 has been down for > 10 minutes on a-1"
                "critical" false (Some "tcp://n1:26657") ];
            [ AlertCall "chainA" "val has missed > 5% of the slashing window's blocks on a-1"
                "critical" false (Some "cons1percent");
              AlertCall "chainA" "RPC node tcp://n1:26657 has been down for > 10 minutes on a-1"
                "critical" false (Some "tcp://n1:26657") ] ])
    /\ Watch.pctAlarm st = false
    /\ Go.mapGet (Watch.nodeAlarms st) "tcp://n1:26657" = false
    /\ raised st = 0
    /\ performEvents Scenario.td0
         [ AlertCall "chainA" "val has missed > 5% of the slashing window's blocks on a-1"
             "critical" false (Some "cons1percent");
           AlertCall "chainA" "RPC node tcp://n1:26657 has been down for > 10 minutes on a-1"
             "critical" false (Some "tcp://n1:26657");
           AlertCall "chainA" "val has missed > 5% of the slashing window's blocks on a-1"
             "critical" false (Some "cons1percent");
           AlertCall "chainA" "RPC node tcp://n1:26657 has been down for > 10 minutes on a-1"
             "critical" false (Some "tcp://n1:26657") ] emptyWorld = Some w
    /\ size (alarmsOf "chainA" w) = 2%nat.
Proof.
  eexists _, _. split; [vm_compute; reflexivity|].
  repeat split; vm_compute; reflexivity.
Qed.

(** C6, as stated, fails: on the pass where the no-reachable-RPC alarm
    triggers [activeAlerts] keeps its value instead of growing by one, and it
    keeps it again on the next pass, where that alarm clears and the
    stalled-chain alarm triggers. *)
Lemma noRpc_and_stalled_edges_skip_activeAlerts :
  exists st1 st2,
    tick Scenario.td0 Scenario.t0
      (observe (Scenario.sample Scenario.cc0 true Scenario.t0 0 Scenario.vi0 [Scenario.node0])
         (startWatch Scenario.cc0))
      = Some (st1, [AlertCall "chainA" "no RPC endpoints are working for a-1" "critical"
                      false (Some "cons1")])
    /\ Watch.noNodes st1 = true
    /\ activeAlertsOf (startWatch Scenario.cc0) = 0
    /\ activeAlertsOf st1 = 0
    /\ tick Scenario.td0 (Scenario.t0 + 11 * time.Minute)
         (observe (Scenario.sample Scenario.cc0 false Scenario.t0 0 Scenario.vi0 [Scenario.node0])
            st1)
       = Some (st2, [AlertCall "chainA" "no RPC endpoints are working for a-1" "critical"
                       true (Some "cons1");
                     AlertCall "chainA" "stalled: have not seen a new block on a-1 in 10 minutes"
                       "critical" false (Some "cons1")])
    /\ CC.lastBlockAlarm (Watch.cc st2) = true
    /\ activeAlertsOf st2 = 0.
Proof.
  eexists _, _. split; [vm_compute; reflexivity|].
  repeat split; vm_compute; reflexivity.
Qed.

(** C6, amended.  Over any finite run of passes from a state whose
    [activeAlerts] is a Go [int]: the run completes when every sample carries
    the validator record; [activeAlerts] ends at its initial value plus the
    change in the number of raised alarms of the consecutive-miss, percentage
    and node-down kinds (one up per trigger edge, one down per clear edge,
    in 64-bit arithmetic), so it is back at its initial value once as many
    of these are raised as at the start; and the no-reachable-RPC and
    stalled-chain blocks never change it. *)
Theorem activeAlerts_counts_three_kinds (td : Config)
    (samples : list (time.Time * ChainConfig)) (st0 : Watch.State) :
  Go.in_int (activeAlertsOf st0) ->
  (Forall (fun s : time.Time * ChainConfig => is_Some (CC.valInfo s.2)) samples ->
   is_Some (ticks td samples st0))
  /\ (forall st ess, ticks td samples st0 = Some (st, ess) ->
        activeAlertsOf st = Go.wrap_int (activeAlertsOf st0 + (raised st - raised st0))
        /\ (raised st = raised st0 -> activeAlertsOf st = activeAlertsOf st0))
  /\ (forall now st st' es,
        stepNoNodes st = Some (st', es) \/ stepStalled now st = Some (st', es) ->
        activeAlertsOf st' = activeAlertsOf st).
Proof.
  intros Hin. split; [by apply ticks_is_Some|]. split.
  - intros st ess Hrun. destruct (ticks_effect td samples _ _ _ Hin Hrun) as [_ Ht].
    split; [exact Ht|]. intros Hr. rewrite Ht, Hr, Z.sub_diag, Z.add_0_r.
    by apply wrap_int_in.
  - intros now st st' es [H|H]; revert H; unfold stepNoNodes, stepStalled;
      step_cases; by intros [= <- <-].
Qed.

Lemma activeAlerts_counts_three_kinds_witness :
  (Forall (fun s : time.Time * ChainConfig => is_Some (CC.valInfo s.2))
     Scenario.degradedThenRecovered ->
   is_Some (ticks Scenario.td0 Scenario.degradedThenRecovered (startWatch Scenario.cc0)))
  /\ (forall st ess,
        ticks Scenario.td0 Scenario.degradedThenRecovered (startWatch Scenario.cc0)
          = Some (st, ess) ->
        activeAlertsOf st
          = Go.wrap_int (activeAlertsOf (startWatch Scenario.cc0)
                         + (raised st - raised (startWatch Scenario.cc0)))
        /\ (raised st = raised (startWatch Scenario.cc0) ->
            activeAlertsOf st = activeAlertsOf (startWatch Scenario.cc0)))
  /\ (forall now st st' es,
        stepNoNodes st = Some (st', es) \/ stepStalled now st = Some (st', es) ->
        activeAlertsOf st' = activeAlertsOf st).
Proof.
  apply (activeAlerts_counts_three_kinds Scenario.td0 Scenario.degradedThenRecovered
           (startWatch Scenario.cc0)).
  unfold Go.in_int, activeAlertsOf. simpl. lia.
Defined.

(** On that run the counter goes 0, 2, 0. *)
Example activeAlerts_up_and_down :
  (fun r => activeAlertsOf r.1) <$>
    ticks Scenario.td0 (take 1 Scenario.degradedThenRecovered) (startWatch Scenario.cc0)
    = Some 2
  /\ (fun r => activeAlertsOf r.1) <$>
       ticks Scenario.td0 Scenario.degradedThenRecovered (startWatch Scenario.cc0)
     = Some 0.
Proof. split; vm_compute; reflexivity. Qed.

(** *** The consecutive-miss alarm on its own *)

Lemma onlyConsecutive_with_owned a b c : onlyConsecutive c -> onlyConsecutive (with_owned a b c).
Proof. by intros (? & ? & ? & ?). Qed.

Lemma stepNodes_quiet td now nodes st :
  Forall (fun node => Node.AlertIfDown node = false) nodes -> noNodeAlarm st ->
  stepNodes td now nodes st = Some (st, []).
Proof.
  intros Hall Hquiet. induction Hall as [|node rest Hnode _ IH]; [done|].
  simpl. unfold andThen, stepNode at 1. rewrite Hnode, Hquiet. simpl.
  by rewrite IH.
Qed.

(** The consecutive-miss block does what the specification's table says. *)
Lemma stepConsecutive_spec st vi :
  CC.valInfo (Watch.cc st) = Some vi ->
  let cc := Watch.cc st in
  let p := specConsecutivePass (CC.Alerts_ConsecutiveAlerts cc) (CC.Alerts_ConsecutiveMissed cc)
             (Watch.missedAlarm st) (CC.statConsecutiveMiss cc) in
  exists st', stepConsecutive st = Some (st', consecutiveCalls cc vi p.2)
    /\ Watch.missedAlarm st' = p.1
    /\ Watch.pctAlarm st' = Watch.pctAlarm st
    /\ Watch.nodeAlarms st' = Watch.nodeAlarms st
    /\ sameChain st st'.
Proof.
  intros Hvi cc p. subst p cc. unfold stepConsecutive, specConsecutivePass. rewrite Hvi.
  step_cases; eexists; (split; [reflexivity|]); repeat split; unchanged.
Qed.

(** With the other alarms switched off, a pass is its consecutive-miss
    block followed by the metrics. *)
Lemma tick_onlyConsecutive td now st vi :
  onlyConsecutive (Watch.cc st) -> noNodeAlarm st ->
  CC.valInfo (Watch.cc st) = Some vi ->
  let cc := Watch.cc st in
  let p := specConsecutivePass (CC.Alerts_ConsecutiveAlerts cc) (CC.Alerts_ConsecutiveMissed cc)
             (Watch.missedAlarm st) (CC.statConsecutiveMiss cc) in
  exists st' es, tick td now st = Some (st', es)
    /\ alertCalls es = consecutiveCalls cc vi p.2
    /\ Watch.missedAlarm st' = p.1
    /\ Watch.pctAlarm st' = Watch.pctAlarm st
    /\ Watch.nodeAlarms st' = Watch.nodeAlarms st.
Proof.
  intros (HnoRpc & Hstall & Hpct & Hnodes) Hquiet Hvi cc p.
  destruct (stepConsecutive_spec st vi Hvi) as (st1 & H3 & Hm & Hp & Hn & (a & b & Hcc)).
  fold cc in H3. fold p in H3, Hm.
  assert (H1 : stepNoNodes st = Some (st, [])) by (unfold stepNoNodes; by rewrite HnoRpc).
  assert (H2 : stepStalled now st = Some (st, [])) by (unfold stepStalled; by rewrite Hstall).
  assert (H4 : stepPercentage st1 = Some (st1, []))
    by (unfold stepPercentage; rewrite Hcc; simpl; by rewrite Hpct).
  assert (H5 : stepNodes td now (CC.Nodes (Watch.cc st1)) st1 = Some (st1, [])).
  { apply stepNodes_quiet; [by rewrite Hcc | intros url; unfold noNodeAlarm in Hquiet].
    by rewrite Hn. }
  destruct (stepProm td now st1) as [[st6 stats]|] eqn:H6.
  2: { unfold stepProm in H6. by destruct (Cfg.Prom td). }
  destruct (stepProm_effect _ _ _ _ _ H6) as [-> Hstats].
  exists st1, (consecutiveCalls cc vi p.2 ++ stats).
  split.
  - unfold tick, andThen. rewrite H1. simpl. rewrite H2. simpl. rewrite H3. simpl.
    rewrite H4. simpl. rewrite H5. simpl. rewrite H6. by simpl.
  - split; [|done]. unfold alertCalls in *. rewrite filter_app, Hstats, app_nil_r.
    by destruct p.2.
Qed.

Lemma consecutiveCalls_sample a b cc n vi o :
  consecutiveCalls (with_owned a b (withMiss cc n)) vi o = consecutiveCalls cc vi o.
Proof. by destruct o. Qed.

(** A run fed with counter values only refines the specification's
    hysteresis, pass by pass. *)
Lemma ticks_onlyConsecutive td cc vi passes : forall st,
  onlyConsecutive cc -> CC.valInfo cc = Some vi -> noNodeAlarm st ->
  let r := specConsecutive (CC.Alerts_ConsecutiveAlerts cc) (CC.Alerts_ConsecutiveMissed cc)
             (Watch.missedAlarm st) passes.*2 in
  exists st' ess, ticks td (feedCounters cc passes) st = Some (st', ess)
    /\ alertCalls <$> ess = consecutiveCalls cc vi <$> r.2
    /\ Watch.missedAlarm st' = r.1
    /\ Watch.pctAlarm st' = Watch.pctAlarm st
    /\ Watch.nodeAlarms st' = Watch.nodeAlarms st.
Proof.
  induction passes as [|[now n] rest IH]; intros st Honly Hvi Hquiet; simpl.
  - by eexists _, _.
  - destruct (tick_onlyConsecutive td now (observe (withMiss cc n) st) vi)
      as (st1 & es & Ht & Hes & Hm & Hp & Hn); [| done | done |].
    { simpl. by apply onlyConsecutive_with_owned. }
    simpl in Hes, Hm, Hp, Hn.
    destruct (IH st1 Honly Hvi) as (st2 & ess & Hr & Hess & Hm2 & Hp2 & Hn2).
    { intros url. by rewrite Hn. }
    exists st2, (es :: ess). rewrite Ht. simpl. rewrite Hr. simpl.
    split; [done|]. rewrite Hm in *.
    split; [f_equal; [rewrite Hes; apply consecutiveCalls_sample | exact Hess]|].
    split; [exact Hm2|].
    split; [by rewrite Hp2 | by rewrite Hn2].
Qed.

Lemma specConsecutivePass_below enabled threshold n :
  n < threshold -> specConsecutivePass enabled threshold false n = (false, None).
Proof.
  intros Hn. unfold specConsecutivePass.
  replace (threshold <=? n) with false by (symmetry; apply Z.leb_gt; lia).
  by rewrite andb_false_r.
Qed.

Lemma specConsecutive_below enabled threshold counters :
  Forall (fun n => n < threshold) counters ->
  specConsecutive enabled threshold false counters = (false, const None <$> counters).
Proof.
  induction 1 as [|n rest Hn _ IH]; [done|].
  cbn [specConsecutive]. rewrite specConsecutivePass_below by done.
  cbn [fst snd]. by rewrite IH.
Qed.

Lemma startWatch_quiet cc : noNodeAlarm (startWatch cc) /\ raised (startWatch cc) = 0.
Proof.
  split; [intros url; unfold Go.mapGet; simpl; by rewrite lookup_empty|].
  unfold raised, raisedNodes. simpl. by rewrite map_filter_empty, map_size_empty.
Qed.

(** [activeAlerts] after a consecutive-only run from the start of [watch]. *)
Lemma ticks_onlyConsecutive_activeAlerts td cc passes st ess :
  Go.in_int (CC.activeAlerts cc) ->
  ticks td (feedCounters cc passes) (startWatch cc) = Some (st, ess) ->
  Watch.missedAlarm st = false -> Watch.pctAlarm st = false ->
  Watch.nodeAlarms st = ∅ ->
  activeAlertsOf st = CC.activeAlerts cc.
Proof.
  intros Hin Hrun Hm Hp Hn.
  assert (Hin0 : Go.in_int (activeAlertsOf (startWatch cc))) by done.
  destruct (ticks_effect td _ _ _ _ Hin0 Hrun) as [_ Ht].
  destruct (startWatch_quiet cc) as [_ Hz].
  assert (Hr : raised st = 0).
  { unfold raised. rewrite Hm, Hp, Hn. exact Hz. }
  rewrite Ht, Hr, Hz, Z.sub_diag, Z.add_0_r. by apply wrap_int_in.
Qed.

(** C7. On a chain where only the consecutive-miss alarm is switched on,
    started as [watch] starts.  With the alarm enabled and a threshold of 5,
    the counter values 0, 2, 4, 5, 6, 7, 5, 4, one per pass, give no alert
    call on the first three passes, the trigger call (resolved = false) on
    the fourth, where the counter first reaches 5, no call on the next three,
    and the resolve call (resolved = true) on the eighth, where it drops to
    4; [activeAlerts] ends at the value it started with.  Whatever the
    threshold, a sequence of values all strictly below it gives no alert
    call on any pass and leaves [activeAlerts] as it was. *)
Theorem consecutive_miss_hysteresis (td : Config) (cc : ChainConfig) (vi : ValInfo) :
  onlyConsecutive cc -> CC.valInfo cc = Some vi -> Go.in_int (CC.activeAlerts cc) ->
  (CC.Alerts_ConsecutiveAlerts cc = true -> CC.Alerts_ConsecutiveMissed cc = 5 ->
   forall t1 t2 t3 t4 t5 t6 t7 t8 : time.Time,
   exists st ess,
     ticks td
       (feedCounters cc [(t1, 0); (t2, 2); (t3, 4); (t4, 5); (t5, 6); (t6, 7); (t7, 5); (t8, 4)])
       (startWatch cc) = Some (st, ess)
     /\ alertCalls <$> ess
        = [ []; []; []; [consecutiveCall cc vi false]; []; []; []; [consecutiveCall cc vi true] ]
     /\ activeAlertsOf st = CC.activeAlerts cc)
  /\ (forall passes : list (time.Time * Z),
      Forall (fun p => p.2 < CC.Alerts_ConsecutiveMissed cc) passes ->
      exists st ess,
        ticks td (feedCounters cc passes) (startWatch cc) = Some (st, ess)
        /\ Forall (fun es => alertCalls es = []) ess
        /\ activeAlertsOf st = CC.activeAlerts cc).
Proof.
  intros Honly Hvi Hin. destruct (startWatch_quiet cc) as [Hquiet _]. split.
  - intros Hen Hthr t1 t2 t3 t4 t5 t6 t7 t8.
    destruct (ticks_onlyConsecutive td cc vi
                [(t1, 0); (t2, 2); (t3, 4); (t4, 5); (t5, 6); (t6, 7); (t7, 5); (t8, 4)]
                (startWatch cc) Honly Hvi Hquiet) as (st & ess & Hr & Hess & Hm & Hp & Hn).
    rewrite Hen, Hthr in Hess, Hm. exists st, ess.
    split; [exact Hr|]. split; [exact Hess|].
    by eapply ticks_onlyConsecutive_activeAlerts.
  - intros passes Hbelow.
    destruct (ticks_onlyConsecutive td cc vi passes (startWatch cc) Honly Hvi Hquiet)
      as (st & ess & Hr & Hess & Hm & Hp & Hn).
    rewrite specConsecutive_below in Hess, Hm.
    2, 3: by apply Forall_fmap; eapply Forall_impl; [exact Hbelow|].
    exists st, ess. split; [exact Hr|].
    split; [|by eapply ticks_onlyConsecutive_activeAlerts].
    simpl in Hess. clear -Hess. revert ess Hess.
    induction (passes.*2) as [|n rest IH]; intros [|es ess] Hess; try done.
    injection Hess as He Hess. constructor; [exact He | by apply IH].
Qed.

Lemma consecutive_miss_hysteresis_witness :
  (CC.Alerts_ConsecutiveAlerts Scenario.ccConsecutive = true ->
   CC.Alerts_ConsecutiveMissed Scenario.ccConsecutive = 5 ->
   forall t1 t2 t3 t4 t5 t6 t7 t8 : time.Time,
   exists st ess,
     ticks Scenario.td0
       (feedCounters Scenario.ccConsecutive
          [(t1, 0); (t2, 2); (t3, 4); (t4, 5); (t5, 6); (t6, 7); (t7, 5); (t8, 4)])
       (startWatch Scenario.ccConsecutive) = Some (st, ess)
     /\ alertCalls <$> ess
        = [ []; []; []; [consecutiveCall Scenario.ccConsecutive Scenario.vi0 false];
            []; []; []; [consecutiveCall Scenario.ccConsecutive Scenario.vi0 true] ]
     /\ activeAlertsOf st = CC.activeAlerts Scenario.ccConsecutive)
  /\ (forall passes : list (time.Time * Z),
      Forall (fun p => p.2 < CC.Alerts_ConsecutiveMissed Scenario.ccConsecutive) passes ->
      exists st ess,
        ticks Scenario.td0 (feedCounters Scenario.ccConsecutive passes)
          (startWatch Scenario.ccConsecutive) = Some (st, ess)
        /\ Forall (fun es => alertCalls es = []) ess
        /\ activeAlertsOf st = CC.activeAlerts Scenario.ccConsecutive).
Proof.
  apply (consecutive_miss_hysteresis Scenario.td0 Scenario.ccConsecutive Scenario.vi0).
  - repeat split; simpl; constructor.
  - reflexivity.
  - unfold Go.in_int. simpl. lia.
Defined.

(** The scenario run on the concrete chain, metrics and all. *)
Example consecutive_miss_scenario_run :
  (fun r => (activeAlertsOf r.1, r.2)) <$>
    ticks Scenario.td0
      (feedCounters Scenario.ccConsecutive
         [(1, 0); (2, 2); (3, 4); (4, 5); (5, 6); (6, 7); (7, 5); (8, 4)])
      (startWatch Scenario.ccConsecutive)
  = Some (0,
      [ []; []; [];
        [AlertCall "chainA" "val has missed 5 blocks on a-1" "critical" false
           (Some "cons1consecutive")];
        []; []; [];
        [AlertCall "chainA" "val has missed 5 blocks on a-1" "critical" true
           (Some "cons1consecutive")] ]).
Proof. vm_compute. reflexivity. Qed.

(** *** The whole of [watch] *)

Lemma waitPass_effect st st' es :
  Go.in_int (activeAlertsOf st) -> waitPass st = Some (st', es) -> tracks st st'.
Proof.
  intros Hin. unfold waitPass. step_cases; intros [= <- <-]; unchanged.
Qed.

(** The first loop does not touch [activeAlerts] either, so the count of the
    second loop carries over to [watch] as a whole. *)
Lemma watchFrom_effect td samples : forall st st' ess,
  Go.in_int (activeAlertsOf st) -> watchFrom td samples st = Some (st', ess) ->
  tracks st st'.
Proof.
  induction samples as [|[now sample] rest IH]; intros st st' ess Hin; simpl.
  - intros [= <- <-]. by apply tracks_refl.
  - assert (Hin' : Go.in_int (activeAlertsOf (observe sample st))) by done.
    destruct (connected _).
    + destruct (ticks td rest (observe sample st)) as [[st1 ess']|] eqn:Hr; [|done].
      simpl. intros [= <- <-]. apply (tracks_observe sample).
      by eapply ticks_effect.
    + destruct (waitPass (observe sample st)) as [[st1 es]|] eqn:Hw; [|done]. simpl.
      destruct (watchFrom td rest st1) as [[st2 ess']|] eqn:Hr; [|done]. simpl.
      intros [= <- <-].
      pose proof (waitPass_effect _ _ _ Hin' Hw) as T1.
      eapply tracks_trans; [by apply (tracks_observe sample)|].
      eapply IH; [exact (proj1 T1) | exact Hr].
Qed.

(** While the moniker is unknown only the no-reachable-RPC alarm can fire;
    the pass that sees the moniker emits nothing and the second loop starts
    with the sample after it. *)
Example watch_waits_for_moniker :
  snd <$> watch Scenario.td0 Scenario.cc0
    [ (Scenario.t0,
       Scenario.sample Scenario.cc0 true Scenario.t0 0
         {| Val.Moniker := "not connected"; Val.Valcons := "cons1";
            Val.Missed := 0; Val.Window := 100 |} [Scenario.node0]);
      (Scenario.t0 + time.Second,
       Scenario.sample Scenario.cc0 true Scenario.t0 0 Scenario.vi0 [Scenario.node0]);
      (Scenario.t0 + 3 * time.Second,
       Scenario.sample Scenario.cc0 false Scenario.t0 7 Scenario.vi0 [Scenario.node0]) ]
  = Some
      [ [AlertCall "chainA" "no RPC endpoints are working for a-1" "critical" false
           (Some "cons1")];
        [];
        [AlertCall "chainA" "no RPC endpoints are working for a-1" "critical" true
           (Some "cons1");
         AlertCall "chainA" "val has missed 5 blocks on a-1" "critical" false
           (Some "cons1consecutive")] ].
Proof. vm_compute. reflexivity. Qed.

(** With no validator record at all, the first loop stops at
    [&cc.valInfo.Valcons] as soon as it has an alarm to raise. *)
Example watch_without_valInfo :
  watch Scenario.td0 Scenario.cc0 [ (Scenario.t0, Scenario.unconnected Scenario.cc0 true) ]
    = None
  /\ snd <$> watch Scenario.td0 Scenario.cc0
               [ (Scenario.t0, Scenario.unconnected Scenario.cc0 false) ]
     = Some [ [] ].
Proof. split; vm_compute; reflexivity. Qed.

(** * Further properties of the code *)

(** ** shouldNotify *)

(** X1. [shouldNotify] returns [false] exactly for a non-resolved message
    whose text is marked for the destination, and then it changes nothing at
    all; every call that returns [true] writes exactly one log line. *)
Theorem shouldNotify_suppresses_exactly (msg : alertMsg) (dest : notifyDest) (w : World) :
  ((shouldNotify msg dest w).1 = false
   <-> active dest (Msg.message msg) w = true /\ Msg.resolved msg = false)
  /\ ((shouldNotify msg dest w).1 = false -> (shouldNotify msg dest w).2 = w)
  /\ ((shouldNotify msg dest w).1 = true ->
      length (logged (shouldNotify msg dest w).2) = S (length (logged w))).
Proof.
  unfold active, shouldNotify.
  destruct (Go.mapGet _ _), (Msg.resolved msg); simpl;
    repeat split; try done; try (by intros [? ?]);
    intros _; rewrite length_app; simpl; lia.
Qed.

Lemma shouldNotify_lookup_other (msg : alertMsg) (dest dest' : notifyDest) (w : World)
    (text : string) :
  text <> Msg.message msg ->
  whichMapOf dest' (shouldNotify msg dest w).2 !! text = whichMapOf dest' w !! text.
Proof.
  intros Hne. destruct (decide (dest = dest')) as [<-|Hd].
  - destruct (active dest (Msg.message msg) w) eqn:Ha.
    + destruct (Msg.resolved msg) eqn:Hr.
      * destruct (shouldNotify_cleared _ _ _ Ha Hr) as [_ ->]. by rewrite lookup_delete_ne.
      * by rewrite (shouldNotify_suppressed _ _ _ Ha Hr).
    + destruct (shouldNotify_marked _ _ _ Ha) as [_ ->]. by rewrite lookup_insert_ne.
  - destruct (shouldNotify_frame msg dest w) as [H _]. by rewrite (H dest' Hd).
Qed.

(** X2. A call touches the selected map at the text of the message only:
    every other text keeps its entry, on that destination as on the others. *)
Theorem shouldNotify_other_texts (msg : alertMsg) (dest dest' : notifyDest) (w : World)
    (text : string) :
  text <> Msg.message msg ->
  whichMapOf dest' (shouldNotify msg dest w).2 !! text = whichMapOf dest' w !! text.
Proof. apply shouldNotify_lookup_other. Qed.

Lemma shouldNotify_other_texts_witness :
  whichMapOf pd (shouldNotify (Scenario.msg0 true) pd
                   (shouldNotify (Scenario.msg0 false) pd emptyWorld).2).2 !! "stalled"
  = whichMapOf pd (shouldNotify (Scenario.msg0 false) pd emptyWorld).2 !! "stalled".
Proof.
  apply (shouldNotify_other_texts (Scenario.msg0 true) pd pd
           (shouldNotify (Scenario.msg0 false) pd emptyWorld).2 "stalled").
  discriminate.
Defined.

Lemma marksClean_step msg dest w : marksClean w -> marksClean (shouldNotify msg dest w).2.
Proof.
  intros Hclean dest' text.
  destruct (decide (text = Msg.message msg)) as [->|Hne].
  2: { rewrite shouldNotify_lookup_other by done. apply Hclean. }
  destruct (decide (dest = dest')) as [<-|Hd].
  2: { destruct (shouldNotify_frame msg dest w) as [H _]. rewrite (H dest' Hd). apply Hclean. }
  destruct (active dest (Msg.message msg) w) eqn:Ha.
  - destruct (Msg.resolved msg) eqn:Hr.
    + destruct (shouldNotify_cleared _ _ _ Ha Hr) as [_ ->]. by rewrite lookup_delete_eq.
    + rewrite (shouldNotify_suppressed _ _ _ Ha Hr). apply Hclean.
  - destruct (shouldNotify_marked _ _ _ Ha) as [_ ->]. by rewrite lookup_insert_eq.
Qed.

(** X3. The de-duplication maps never come to hold a [false] entry: if none
    does before a call, none does after it, so that a text is marked for a
    destination exactly when it is a key of that destination's map. *)
Theorem shouldNotify_keeps_marks_clean (msg : alertMsg) (dest : notifyDest) (w : World) :
  marksClean w ->
  marksClean (shouldNotify msg dest w).2
  /\ forall d text, active d text (shouldNotify msg dest w).2 = true
                    <-> text ∈ mapKeys (whichMapOf d (shouldNotify msg dest w).2).
Proof.
  intros Hclean. pose proof (marksClean_step msg dest w Hclean) as Hclean'.
  split; [done|]. intros d text. rewrite elem_of_mapKeys. unfold active, Go.mapGet.
  specialize (Hclean' d text).
  destruct (whichMapOf d _ !! text) as [[]|]; simpl; split;
    first [done | by eexists | by intros [? ?]].
Qed.

Lemma shouldNotify_keeps_marks_clean_witness :
  marksClean (shouldNotify (Scenario.msg0 false) di emptyWorld).2
  /\ forall d text, active d text (shouldNotify (Scenario.msg0 false) di emptyWorld).2 = true
                    <-> text ∈ mapKeys (whichMapOf d (shouldNotify (Scenario.msg0 false) di
                                                        emptyWorld).2).
Proof.
  apply (shouldNotify_keeps_marks_clean (Scenario.msg0 false) di emptyWorld).
  intros dest text. destruct dest; simpl; rewrite lookup_empty; discriminate.
Defined.

(** A call that is not a resolution for (text, dest) leaves the mark of
    (text, dest) in place. *)
Lemma shouldNotify_keeps_mark text dest c w :
  active dest text w = true -> ~ resolves text dest c ->
  active dest text (shouldNotify c.1 c.2 w).2 = true.
Proof.
  intros Ha Hnot. unfold active, Go.mapGet in *.
  destruct (decide (text = Msg.message c.1)) as [->|Hne].
  2: { by rewrite shouldNotify_lookup_other. }
  destruct (decide (c.2 = dest)) as [Hd|Hd].
  2: { destruct (shouldNotify_frame c.1 c.2 w) as [H _]. by rewrite (H dest Hd). }
  destruct (Msg.resolved c.1) eqn:Hr; [by destruct Hnot|].
  rewrite shouldNotify_suppressed; [done | | done].
  unfold active, Go.mapGet. by rewrite Hd.
Qed.

(** X4. Once a text is marked for a destination, every later non-resolved
    call for that text and destination returns [false], whatever other
    calls (other texts, other destinations, any flags) come in between, as
    long as none of them is a resolution for that text and destination; the
    mark is still there at the end. *)
Theorem notifyAll_suppressed_until_resolved (text : string) (dest : notifyDest)
    (calls : list (alertMsg * notifyDest)) (w : World) :
  active dest text w = true ->
  Forall (fun c => ~ resolves text dest c) calls ->
  active dest text (notifyAll calls w).2 = true
  /\ Forall2 (fun c r => Msg.message c.1 = text -> c.2 = dest -> r = false)
       calls (notifyAll calls w).1.
Proof.
  intros Ha Hall. revert w Ha.
  induction Hall as [|c rest Hc _ IH]; intros w Ha; simpl; [by split|].
  destruct (IH (shouldNotify c.1 c.2 w).2 (shouldNotify_keeps_mark _ _ _ _ Ha Hc))
    as [Hend Hrest].
  split; [done|]. constructor; [|done].
  intros Ht Hd. destruct (Msg.resolved c.1) eqn:Hr; [by destruct Hc|].
  rewrite shouldNotify_suppressed; [done | by rewrite Ht, Hd | done].
Qed.

Lemma notifyAll_suppressed_until_resolved_witness :
  let text := Msg.message (Scenario.msg0 false) in
  let w := (shouldNotify (Scenario.msg0 false) tg emptyWorld).2 in
  let calls := [ (Scenario.msg0 true, pd); (Scenario.msg0 false, tg) ] in
  active tg text (notifyAll calls w).2 = true
  /\ Forall2 (fun c r => Msg.message c.1 = text -> c.2 = tg -> r = false)
       calls (notifyAll calls w).1.
Proof.
  apply (notifyAll_suppressed_until_resolved (Msg.message (Scenario.msg0 false)) tg
           [ (Scenario.msg0 true, pd); (Scenario.msg0 false, tg) ]
           (shouldNotify (Scenario.msg0 false) tg emptyWorld).2).
  - reflexivity.
  - repeat constructor; intros (_ & H & H'); simpl in *; discriminate.
Defined.

(** ** The per-sink wrappers *)

Lemma whichMapOf_dedupOf dest w1 w2 :
  dedupOf w1 = dedupOf w2 -> whichMapOf dest w1 = whichMapOf dest w2.
Proof. unfold dedupOf. intros [= H1 H2 H3]. by destruct dest. Qed.

Lemma active_after_trigger msg dest w :
  Msg.resolved msg = false -> active dest (Msg.message msg) (shouldNotify msg dest w).2 = true.
Proof.
  intros Hr. destruct (active dest (Msg.message msg) w) eqn:Ha.
  - by rewrite shouldNotify_suppressed.
  - by apply active_after_marked.
Qed.

Lemma sinkContract_repeat enabled dest msg w r1 r2 :
  Msg.resolved msg = false ->
  sinkContract enabled dest r1 msg w -> sinkContract enabled dest r2 msg r1.2 ->
  r2 = (None, r1.2).
Proof.
  intros Hr. unfold sinkContract. destruct enabled; [|by intros -> ->].
  intros (Hmarks & _ & _) (_ & Hsup & _).
  assert (Ha : active dest (Msg.message msg) r1.2 = true).
  { unfold active. rewrite (whichMapOf_dedupOf dest _ _ Hmarks). by apply active_after_trigger. }
  rewrite (shouldNotify_suppressed _ _ _ Ha Hr) in Hsup. by apply Hsup.
Qed.

(** X5. A non-resolved message handed a second time to the same wrapper
    sends nothing, returns no error and changes nothing, whatever the first
    call did: delivered, failed on the transport, or suppressed. *)
Theorem notify_repeat_sends_nothing (net1 net2 : Net) (msg : alertMsg) (w : World) :
  Msg.resolved msg = false ->
  notifyPagerduty net2 msg (notifyPagerduty net1 msg w).2
    = (None, (notifyPagerduty net1 msg w).2)
  /\ notifyTg net2 msg (notifyTg net1 msg w).2 = (None, (notifyTg net1 msg w).2)
  /\ notifyDiscord net2 msg (notifyDiscord net1 msg w).2
     = (None, (notifyDiscord net1 msg w).2).
Proof.
  intros Hr. repeat split.
  - eapply sinkContract_repeat; [done | apply notifyPagerduty_contract..].
  - eapply sinkContract_repeat; [done | apply notifyTg_contract..].
  - eapply sinkContract_repeat; [done | apply notifyDiscord_contract..].
Qed.

Lemma notify_repeat_sends_nothing_witness :
  let msg := Scenario.msg0 false in
  notifyPagerduty Scenario.netHttp500 msg (notifyPagerduty Scenario.netDown msg emptyWorld).2
    = (None, (notifyPagerduty Scenario.netDown msg emptyWorld).2)
  /\ notifyTg Scenario.netHttp500 msg (notifyTg Scenario.netDown msg emptyWorld).2
     = (None, (notifyTg Scenario.netDown msg emptyWorld).2)
  /\ notifyDiscord Scenario.netHttp500 msg (notifyDiscord Scenario.netDown msg emptyWorld).2
     = (None, (notifyDiscord Scenario.netDown msg emptyWorld).2).
Proof.
  apply (notify_repeat_sends_nothing Scenario.netDown Scenario.netHttp500
           (Scenario.msg0 false) emptyWorld).
  reflexivity.
Defined.

(** X6. With the example routing key, [notifyPagerduty] sends nothing and
    returns no error, yet the text is marked as sent on the paging
    destination. *)
Theorem notifyPagerduty_example_key (net : Net) (msg : alertMsg) (w : World) :
  Msg.pd msg = true -> Msg.key msg = exampleKey ->
  active pd (Msg.message msg) w = false ->
  (notifyPagerduty net msg w).1 = None
  /\ wire (notifyPagerduty net msg w).2 = wire w
  /\ active pd (Msg.message msg) (notifyPagerduty net msg w).2 = true.
Proof.
  intros Hpd Hkey Ha. unfold notifyPagerduty. rewrite Hpd, Hkey. simpl.
  pose proof (shouldNotify_wire msg pd w) as Hw.
  pose proof (active_after_marked msg pd w Ha) as Ha'.
  destruct (shouldNotify_marked msg pd w Ha) as [Hok _].
  destruct (shouldNotify msg pd w) as [ok w1]. simpl in *. subst ok. simpl.
  by repeat split.
Qed.

Lemma notifyPagerduty_example_key_witness :
  (notifyPagerduty Scenario.netDown Scenario.msgExampleKey emptyWorld).1 = None
  /\ wire (notifyPagerduty Scenario.netDown Scenario.msgExampleKey emptyWorld).2
     = wire emptyWorld
  /\ active pd (Msg.message Scenario.msgExampleKey)
       (notifyPagerduty Scenario.netDown Scenario.msgExampleKey emptyWorld).2 = true.
Proof.
  apply (notifyPagerduty_example_key Scenario.netDown Scenario.msgExampleKey emptyWorld);
    reflexivity.
Defined.

(** X7. When the webhook answers with a status other than 204,
    [notifyDiscord] has sent its request and returns no error: the [err] it
    returns is the nil left by the successful [client.Do]. *)
Theorem notifyDiscord_bad_status_no_error (net : Net) (msg : alertMsg) (w : World)
    (data : string) (status : Z) :
  Msg.disc msg = true ->
  (shouldNotify msg di w).1 = true ->
  MarshalIndent net (buildDiscordMessage msg) = inl data ->
  NewRequest net (Msg.discHook msg) data = None ->
  Do net (Msg.discHook msg) data = inl status ->
  status <> 204 ->
  (notifyDiscord net msg w).1 = None
  /\ wire (notifyDiscord net msg w).2 = wire w ++ [HttpPost (Msg.discHook msg) data].
Proof.
  intros Hdisc Hok Hm Hreq Hdo Hst. unfold notifyDiscord. rewrite Hdisc. simpl.
  pose proof (shouldNotify_wire msg di w) as Hw.
  destruct (shouldNotify msg di w) as [ok w1]. simpl in *. subst ok. simpl.
  rewrite Hm, Hreq, Hdo.
  replace (status =? 204) with false by (symmetry; by apply Z.eqb_neq).
  simpl. by rewrite Hw.
Qed.

Lemma notifyDiscord_bad_status_no_error_witness :
  (notifyDiscord Scenario.netHttp500 (Scenario.msg0 false) emptyWorld).1 = None
  /\ wire (notifyDiscord Scenario.netHttp500 (Scenario.msg0 false) emptyWorld).2
     = wire emptyWorld ++ [HttpPost (Msg.discHook (Scenario.msg0 false)) "{}"].
Proof.
  apply (notifyDiscord_bad_status_no_error Scenario.netHttp500 (Scenario.msg0 false)
           emptyWorld "{}" 500); try reflexivity.
  discriminate.
Defined.

Ltac frame_cases :=
  repeat match goal with
    | |- context [match ?x with _ => _ end] => destruct x eqn:?; simpl
    end;
  try done.

(** X8. A wrapper reaches the map of its own destination only: the maps of
    the two other destinations, the dashboard registry and the alert queue
    are after the call what they were before, whatever the transport did. *)
Theorem notify_wrappers_frame (net : Net) (msg : alertMsg) (w : World) :
  (let r := notifyPagerduty net msg w in
   sentTgAlarms r.2 = sentTgAlarms w /\ sentDAlarms r.2 = sentDAlarms w
   /\ currentAlarms r.2 = currentAlarms w /\ alertChan r.2 = alertChan w)
  /\ (let r := notifyTg net msg w in
      sentPdAlarms r.2 = sentPdAlarms w /\ sentDAlarms r.2 = sentDAlarms w
      /\ currentAlarms r.2 = currentAlarms w /\ alertChan r.2 = alertChan w)
  /\ (let r := notifyDiscord net msg w in
      sentPdAlarms r.2 = sentPdAlarms w /\ sentTgAlarms r.2 = sentTgAlarms w
      /\ currentAlarms r.2 = currentAlarms w /\ alertChan r.2 = alertChan w).
Proof.
  split; [|split].
  - destruct (shouldNotify_frame msg pd w) as (Hd & Hc & Hq & _).
    pose proof (Hd tg ltac:(done)) as Ht. pose proof (Hd di ltac:(done)) as Hdi.
    unfold notifyPagerduty. simpl in *.
    destruct (Msg.pd msg); simpl; [|done].
    destruct (shouldNotify msg pd w) as [ok w1]. simpl in *. frame_cases.
  - destruct (shouldNotify_frame msg tg w) as (Hd & Hc & Hq & _).
    pose proof (Hd pd ltac:(done)) as Hp. pose proof (Hd di ltac:(done)) as Hdi.
    unfold notifyTg. simpl in *.
    destruct (Msg.tg msg); simpl; [|done].
    destruct (shouldNotify msg tg w) as [ok w1]. simpl in *. frame_cases.
  - destruct (shouldNotify_frame msg di w) as (Hd & Hc & Hq & _).
    pose proof (Hd pd ltac:(done)) as Hp. pose proof (Hd tg ltac:(done)) as Ht.
    unfold notifyDiscord. simpl in *.
    destruct (Msg.disc msg); simpl; [|done].
    destruct (shouldNotify msg di w) as [ok w1]. simpl in *. frame_cases.
Qed.

(** ** alert and getAlarms *)

Lemma alert_alertChan td chain text sev resolved id w w' :
  alert td chain text sev resolved id w = Some w' ->
  exists m, alertChan w' = alertChan w ++ [m] /\ queued m = (chain, text, resolved).
Proof.
  unfold alert. destruct (Cfg.Chains td !! chain) as [cc|]; [|done]. simpl.
  destruct resolved; simpl; [destruct (Go.mapGet _ _)|]; intros [= <-]; by eexists.
Qed.

(** X9. Every [alert] call puts exactly one message on the alert queue, in
    call order, with the chain, text and resolved flag of the call: a
    repeated trigger and a resolution for a text the registry does not hold
    are queued like any other. *)
Theorem alert_queues_every_call (td : Config) (calls : list Event) (w : World) :
  Forall (callConfigured td) calls ->
  exists w', performEvents td calls w = Some w'
    /\ queued <$> alertChan w' = (queued <$> alertChan w) ++ omap callOf calls.
Proof.
  revert w. induction calls as [|e rest IH]; intros w Hall.
  - exists w. by rewrite app_nil_r.
  - apply Forall_cons in Hall as [He Hrest]. simpl.
    destruct e as [c m sev r id | u]; simpl in *.
    + destruct (alert_configured td c m sev r id w He) as [w1 Hw1]. rewrite Hw1. simpl.
      destruct (alert_alertChan _ _ _ _ _ _ _ _ Hw1) as (a & Hq & Ha).
      destruct (IH w1 Hrest) as (w' & Hrun & Hqueue). exists w'. split; [done|].
      rewrite Hqueue, Hq, fmap_app. simpl. rewrite Ha. by rewrite <- app_assoc.
    + by apply IH.
Qed.

Lemma alert_queues_every_call_witness :
  exists w',
    performEvents Scenario.td0
      [AlertCall "chainA" "stalled" "critical" false None;
       AlertCall "chainA" "stalled" "critical" false None;
       AlertCall "chainA" "down" "critical" true None] emptyWorld = Some w'
    /\ queued <$> alertChan w'
       = (queued <$> alertChan emptyWorld)
         ++ omap callOf [AlertCall "chainA" "stalled" "critical" false None;
                         AlertCall "chainA" "stalled" "critical" false None;
                         AlertCall "chainA" "down" "critical" true None].
Proof.
  apply (alert_queues_every_call Scenario.td0).
  repeat constructor; simpl; vm_compute; eauto.
Defined.

Lemma notifyPagerduty_sends net m w1 :
  Msg.pd m = true -> Msg.key m <> exampleKey -> active pd (Msg.message m) w1 = false ->
  wire (notifyPagerduty net m w1).2
  = wire w1 ++ [PdEvent {| RoutingKey := Msg.key m;
                           Action := if Msg.resolved m then "resolve" else "trigger";
                           DedupKey := Msg.uniqueId m; Summary := Msg.message m;
                           Source := Msg.uniqueId m; Severity := Msg.severity m |}].
Proof.
  intros Hpd Hkey Ha. unfold notifyPagerduty. rewrite Hpd. simpl.
  pose proof (shouldNotify_wire m pd w1) as Hw.
  destruct (shouldNotify_marked m pd w1 Ha) as [Hok _].
  destruct (shouldNotify m pd w1) as [ok w2]. simpl in *. subst ok. simpl.
  apply String.eqb_neq in Hkey. unfold exampleKey in Hkey. rewrite Hkey. simpl.
  by rewrite Hw.
Qed.

(** X10. What the paging service receives for an [alert] call on a chain
    with paging switched on (globally and for the chain, with a real routing
    key) when the text is not marked yet: one event whose action is
    [resolve] or [trigger] after the call's resolved flag, whose summary is
    the text, and whose de-duplication key and source are the id passed to
    [alert], or the chain's validator address when none was passed. *)
Theorem alert_then_notifyPagerduty (net : Net) (td : Config) (cc : ChainConfig)
    (chain text sev : string) (resolved : bool) (id : option string) (w : World) :
  Cfg.Chains td !! chain = Some cc ->
  Cfg.Pagerduty_Enabled td = true -> CC.Alerts_PagerdutyAlerts cc = true ->
  Cfg.Pagerduty_ApiKey td <> exampleKey ->
  alertChan w = [] -> active pd text w = false ->
  exists w1 m,
    alert td chain text sev resolved id w = Some w1
    /\ alertChan w1 = [m]
    /\ wire (notifyPagerduty net m w1).2
       = wire w ++ [PdEvent {| RoutingKey := Cfg.Pagerduty_ApiKey td;
                               Action := if resolved then "resolve" else "trigger";
                               DedupKey := default (CC.ValAddress cc) id;
                               Summary := text;
                               Source := default (CC.ValAddress cc) id;
                               Severity := sev |}].
Proof.
  intros Hcc Hen Hchain Hkey Hq Ha.
  unfold alert. rewrite Hcc. simpl. rewrite Hen, Hchain. simpl.
  destruct resolved; simpl; [destruct (Go.mapGet _ _)|];
    eexists _, _; (split; [reflexivity|]); simpl; rewrite Hq;
    (split; [reflexivity|]);
    (rewrite notifyPagerduty_sends; [by destruct id | done | done | done]).
Qed.

Lemma alert_then_notifyPagerduty_witness :
  exists w1 m,
    alert Scenario.td0 "chainA" "stalled" "critical" true (Some "cons1") emptyWorld = Some w1
    /\ alertChan w1 = [m]
    /\ wire (notifyPagerduty Scenario.netDown m w1).2
       = wire emptyWorld
         ++ [PdEvent {| RoutingKey := Cfg.Pagerduty_ApiKey Scenario.td0;
                        Action := if true then "resolve" else "trigger";
                        DedupKey := default (CC.ValAddress Scenario.cc0) (Some "cons1");
                        Summary := "stalled";
                        Source := default (CC.ValAddress Scenario.cc0) (Some "cons1");
                        Severity := "critical" |}].
Proof.
  apply (alert_then_notifyPagerduty Scenario.netDown Scenario.td0 Scenario.cc0
           "chainA" "stalled" "critical" true (Some "cons1") emptyWorld);
    try reflexivity.
  discriminate.
Defined.

(** X11. An [alert] call reaches the alarms of its own chain and the alert
    queue only: the de-duplication maps, the log, the wire and the inner map
    of every other chain are left as they were. *)
Theorem alert_frame (td : Config) (chain text sev : string) (resolved : bool)
    (id : option string) (w w' : World) :
  alert td chain text sev resolved id w = Some w' ->
  dedupOf w' = dedupOf w /\ logged w' = logged w /\ wire w' = wire w
  /\ forall chain', chain' <> chain -> currentAlarms w' !! chain' = currentAlarms w !! chain'.
Proof.
  unfold alert. destruct (Cfg.Chains td !! chain) as [cc|]; [|done]. simpl.
  destruct resolved; simpl; [destruct (Go.mapGet _ _)|]; intros [= <-]; simpl;
    repeat split; intros chain' Hne; by rewrite lookup_insert_ne.
Qed.

Lemma alert_frame_witness :
  dedupOf Scenario.worldOneAlarm = dedupOf emptyWorld
  /\ logged Scenario.worldOneAlarm = logged emptyWorld
  /\ wire Scenario.worldOneAlarm = wire emptyWorld
  /\ forall chain', chain' <> "chainA" ->
       currentAlarms Scenario.worldOneAlarm !! chain' = currentAlarms emptyWorld !! chain'.
Proof.
  apply (alert_frame Scenario.td0 "chainA" "val has missed 5 blocks on a-1" "critical"
           false None emptyWorld Scenario.worldOneAlarm).
  reflexivity.
Defined.

(** X12. On a configured chain, a trigger followed by a resolution of the
    same text gives back the alarm texts the chain held before, when the
    text was not among them; and a trigger repeated changes nothing more
    than the first one did.  The ids and severities of the calls play no
    part. *)
Theorem alert_trigger_resolve_round_trip (td : Config) (chain text : string)
    (sev1 sev2 sev3 : string) (id1 id2 id3 : option string) (w : World) :
  is_Some (Cfg.Chains td !! chain) ->
  alarmsOf chain w !! text = None ->
  exists w1 w2 w3,
    alert td chain text sev1 false id1 w = Some w1
    /\ alert td chain text sev2 true id2 w1 = Some w2
    /\ alert td chain text sev3 false id3 w1 = Some w3
    /\ alarmsOf chain w1 = <[text := true]> (alarmsOf chain w)
    /\ alarmsOf chain w2 = alarmsOf chain w
    /\ alarmsOf chain w3 = alarmsOf chain w1.
Proof.
  intros Hcfg Hfresh.
  destruct (alert_configured td chain text sev1 false id1 w Hcfg) as [w1 H1].
  destruct (alert_configured td chain text sev2 true id2 w1 Hcfg) as [w2 H2].
  destruct (alert_configured td chain text sev3 false id3 w1 Hcfg) as [w3 H3].
  exists w1, w2, w3. repeat (split; [done|]).
  pose proof (alert_alarmsOf _ _ _ _ _ _ _ _ chain H1) as E1.
  pose proof (alert_alarmsOf _ _ _ _ _ _ _ _ chain H2) as E2.
  pose proof (alert_alarmsOf _ _ _ _ _ _ _ _ chain H3) as E3.
  rewrite decide_True in E1, E2, E3 by done.
  split; [done|]. split.
  - rewrite E2, E1. unfold Go.mapGet. rewrite lookup_insert_eq. simpl.
    rewrite delete_insert_eq. by apply delete_id.
  - rewrite E3, E1. by rewrite insert_insert_eq.
Qed.

Lemma alert_trigger_resolve_round_trip_witness :
  exists w1 w2 w3,
    alert Scenario.td0 "chainA" "stalled" "critical" false None Scenario.worldOneAlarm
      = Some w1
    /\ alert Scenario.td0 "chainA" "stalled" "warning" true (Some "x") w1 = Some w2
    /\ alert Scenario.td0 "chainA" "stalled" "critical" false None w1 = Some w3
    /\ alarmsOf "chainA" w1 = <["stalled" := true]> (alarmsOf "chainA" Scenario.worldOneAlarm)
    /\ alarmsOf "chainA" w2 = alarmsOf "chainA" Scenario.worldOneAlarm
    /\ alarmsOf "chainA" w3 = alarmsOf "chainA" w1.
Proof.
  apply (alert_trigger_resolve_round_trip Scenario.td0 "chainA" "stalled"
           "critical" "warning" "critical" None (Some "x") None Scenario.worldOneAlarm).
  - vm_compute. eauto.
  - vm_compute. reflexivity.
Defined.

Lemma getAlarms_alarmsOf rangeKeys td chain w :
  (forall m, rangeKeys m ≡ₚ mapKeys m) -> Cfg.HideLogs td = false ->
  getAlarms rangeKeys td chain w = joinLines (oneLine <$> rangeKeys (alarmsOf chain w)).
Proof.
  intros Hrange Hshow. unfold getAlarms, alarmsOf. rewrite Hshow.
  destruct (currentAlarms w !! chain) as [alarms|]; simpl.
  - apply alarmLines_joinLines.
  - pose proof (Hrange ∅) as Hperm. unfold mapKeys in Hperm.
    rewrite map_to_list_empty in Hperm. apply Permutation_nil_r in Hperm.
    by rewrite Hperm.
Qed.

Lemma mapKeys_nil (m : gmap string bool) : mapKeys m = [] <-> m = ∅.
Proof.
  unfold mapKeys. rewrite <- map_to_list_empty_iff.
  split; [apply fmap_nil_inv | by intros ->].
Qed.

Lemma getAlarms_empty_alarmsOf (rangeKeys : gmap string bool -> list string)
    (td : Config) (chain : string) (w : World) :
  (forall m, rangeKeys m ≡ₚ mapKeys m) -> Cfg.HideLogs td = false ->
  getAlarms rangeKeys td chain w = "" <-> alarmsOf chain w = ∅.
Proof.
  intros Hrange Hshow. rewrite getAlarms_alarmsOf by done.
  rewrite <- mapKeys_nil. pose proof (Hrange (alarmsOf chain w)) as Hperm.
  destruct (rangeKeys (alarmsOf chain w)) as [|k ks] eqn:E.
  - apply Permutation_nil_l in Hperm. by rewrite <- Hperm.
  - split; [done|]. intros Hnil. rewrite Hnil in Hperm.
    by apply Permutation_nil_r in Hperm.
Qed.

(** X13. With the hide-logs flag unset, [getAlarms] returns the empty string
    exactly when the registry holds no alarm text for the chain (no inner
    map, or an empty one). *)
Theorem getAlarms_empty_iff (rangeKeys : gmap string bool -> list string)
    (td : Config) (chain : string) (w : World) :
  (forall m, rangeKeys m ≡ₚ mapKeys m) -> Cfg.HideLogs td = false ->
  getAlarms rangeKeys td chain w = "" <-> alarmsOf chain w = ∅.
Proof. apply getAlarms_empty_alarmsOf. Qed.

Lemma getAlarms_empty_iff_witness :
  getAlarms Scenario.storedOrder Scenario.td0 "chainA" Scenario.worldOneAlarm = ""
  <-> alarmsOf "chainA" Scenario.worldOneAlarm = ∅.
Proof.
  apply (getAlarms_empty_iff Scenario.storedOrder Scenario.td0 "chainA" Scenario.worldOneAlarm).
  - intros m. reflexivity.
  - reflexivity.
Defined.

(** X14. On a configured chain that holds no alarm, with the hide-logs flag
    unset: after a trigger [getAlarms] returns exactly one line, the glyph,
    the text and a newline; after the resolution of that text it returns the
    empty string again. *)
Theorem alert_then_getAlarms (rangeKeys : gmap string bool -> list string)
    (td : Config) (chain text sev1 sev2 : string) (id1 id2 : option string) (w : World) :
  (forall m, rangeKeys m ≡ₚ mapKeys m) -> Cfg.HideLogs td = false ->
  is_Some (Cfg.Chains td !! chain) -> alarmsOf chain w = ∅ ->
  exists w1 w2,
    alert td chain text sev1 false id1 w = Some w1
    /\ getAlarms rangeKeys td chain w1 = glyph +:+ text +:+ Go.newline
    /\ alert td chain text sev2 true id2 w1 = Some w2
    /\ getAlarms rangeKeys td chain w2 = "".
Proof.
  intros Hrange Hshow Hcfg Hnone.
  destruct (alert_configured td chain text sev1 false id1 w Hcfg) as [w1 H1].
  destruct (alert_configured td chain text sev2 true id2 w1 Hcfg) as [w2 H2].
  exists w1, w2.
  pose proof (alert_alarmsOf _ _ _ _ _ _ _ _ chain H1) as E1.
  pose proof (alert_alarmsOf _ _ _ _ _ _ _ _ chain H2) as E2.
  rewrite decide_True in E1, E2 by done. rewrite Hnone in E1.
  rewrite E1 in E2. unfold Go.mapGet in E2. rewrite lookup_insert_eq in E2. simpl in E2.
  rewrite delete_insert_eq, delete_empty in E2.
  split; [done|]. split; [|split; [done|]].
  - rewrite getAlarms_alarmsOf, E1 by done.
    pose proof (Hrange (<[text := true]> ∅)) as Hperm.
    unfold mapKeys in Hperm. rewrite insert_empty, map_to_list_singleton in Hperm.
    simpl in Hperm. apply Permutation_singleton_r in Hperm.
    rewrite insert_empty, Hperm.
    cbn [fmap list_fmap joinLines]. unfold oneLine. by rewrite append_empty_r.
  - by apply getAlarms_empty_alarmsOf.
Qed.

Lemma alert_then_getAlarms_witness :
  exists w1 w2,
    alert Scenario.td0 "chainA" "stalled" "critical" false None emptyWorld = Some w1
    /\ getAlarms Scenario.storedOrder Scenario.td0 "chainA" w1
       = glyph +:+ "stalled" +:+ Go.newline
    /\ alert Scenario.td0 "chainA" "stalled" "critical" true None w1 = Some w2
    /\ getAlarms Scenario.storedOrder Scenario.td0 "chainA" w2 = "".
Proof.
  apply (alert_then_getAlarms Scenario.storedOrder Scenario.td0 "chainA" "stalled"
           "critical" "critical" None None emptyWorld).
  - intros m. reflexivity.
  - reflexivity.
  - vm_compute. eauto.
  - reflexivity.
Defined.

(** ** The chain monitor, block by block *)

From Stdlib Require Floats.SpecFloat Floats.FloatAxioms.

Lemma SFltb_asym (x y : SpecFloat.spec_float) :
  SpecFloat.SFltb x y = true -> SpecFloat.SFltb y x = false.
Proof.
  unfold SpecFloat.SFltb, SpecFloat.SFcompare.
  destruct x as [s1|s1| |s1 m1 e1], y as [s2|s2| |s2 m2 e2];
    try destruct s1; try destruct s2; simpl; try done;
    rewrite (Z.compare_antisym e1 e2);
    destruct (e1 ?= e2); simpl; try done;
    change (Pos.compare_cont Eq m2 m1) with (Pos.compare m2 m1);
    change (Pos.compare_cont Eq m1 m2) with (Pos.compare m1 m2);
    rewrite (Pos.compare_antisym m1 m2); by destruct (m1 ?= m2)%positive.
Qed.

(** On float64, [a > b] excludes [a < b]. *)
Lemma float_gt_not_lt (a b : float) : Go.float_gt a b = true -> Go.float_lt a b = false.
Proof.
  unfold Go.float_gt, Go.float_lt. rewrite !FloatAxioms.ltb_spec. apply SFltb_asym.
Qed.

Lemma float_lt_not_gt (a b : float) : Go.float_lt a b = true -> Go.float_gt a b = false.
Proof.
  unfold Go.float_gt, Go.float_lt. rewrite !FloatAxioms.ltb_spec. apply SFltb_asym.
Qed.

(** NaN compares neither above nor below anything. *)
Lemma float_nan_unordered (b : float) :
  Go.float_gt PrimFloat.nan b = false /\ Go.float_lt PrimFloat.nan b = false.
Proof.
  unfold Go.float_gt, Go.float_lt. rewrite !FloatAxioms.ltb_spec.
  change (FloatOps.Prim2SF PrimFloat.nan) with SpecFloat.S754_nan.
  unfold SpecFloat.SFltb, SpecFloat.SFcompare. by destruct (FloatOps.Prim2SF b).
Qed.

(** *** What each block leaves alone *)

Ltac step_inv :=
  step_cases; intros [= <- <-]; simpl; repeat split;
  first [ done | by eexists | by apply sameChain_same | by eexists _, _ | idtac ].

Lemma stepNoNodes_only st st' es :
  stepNoNodes st = Some (st', es) ->
  Watch.cc st' = Watch.cc st /\ Watch.missedAlarm st' = Watch.missedAlarm st
  /\ Watch.pctAlarm st' = Watch.pctAlarm st /\ Watch.nodeAlarms st' = Watch.nodeAlarms st.
Proof. unfold stepNoNodes. step_inv. Qed.

Lemma stepStalled_only now st st' es :
  stepStalled now st = Some (st', es) ->
  sameChain st st' /\ Watch.noNodes st' = Watch.noNodes st
  /\ Watch.missedAlarm st' = Watch.missedAlarm st
  /\ Watch.pctAlarm st' = Watch.pctAlarm st /\ Watch.nodeAlarms st' = Watch.nodeAlarms st.
Proof. unfold stepStalled. step_inv. Qed.

Lemma onlyActive_refl st : onlyActive st st.
Proof. exists (CC.activeAlerts (Watch.cc st)). by destruct (Watch.cc st). Qed.

Lemma onlyActive_trans st st1 st2 : onlyActive st st1 -> onlyActive st1 st2 -> onlyActive st st2.
Proof. intros (a1 & H1) (a2 & H2). exists a2. by rewrite H2, H1. Qed.

Lemma onlyActive_sameChain st st' : onlyActive st st' -> sameChain st st'.
Proof. intros (a & H). by eexists _, _. Qed.

Lemma stepConsecutive_only st st' es :
  stepConsecutive st = Some (st', es) ->
  onlyActive st st' /\ Watch.noNodes st' = Watch.noNodes st
  /\ Watch.pctAlarm st' = Watch.pctAlarm st /\ Watch.nodeAlarms st' = Watch.nodeAlarms st.
Proof. unfold stepConsecutive. step_inv; apply onlyActive_refl. Qed.

Lemma stepPercentage_only st st' es :
  stepPercentage st = Some (st', es) ->
  onlyActive st st' /\ Watch.noNodes st' = Watch.noNodes st
  /\ Watch.missedAlarm st' = Watch.missedAlarm st /\ Watch.nodeAlarms st' = Watch.nodeAlarms st.
Proof. unfold stepPercentage. step_inv; apply onlyActive_refl. Qed.

Lemma stepNode_only td now node st st' es :
  stepNode td now node st = Some (st', es) ->
  onlyActive st st' /\ Watch.noNodes st' = Watch.noNodes st
  /\ Watch.missedAlarm st' = Watch.missedAlarm st /\ Watch.pctAlarm st' = Watch.pctAlarm st
  /\ forall url, url <> Node.Url node ->
       Watch.nodeAlarms st' !! url = Watch.nodeAlarms st !! url.
Proof.
  unfold stepNode. step_inv; first [apply onlyActive_refl | intros url Hne].
  all: by rewrite lookup_insert_ne.
Qed.

Lemma stepNodes_only td now nodes : forall st st' es,
  stepNodes td now nodes st = Some (st', es) ->
  onlyActive st st' /\ Watch.noNodes st' = Watch.noNodes st
  /\ Watch.missedAlarm st' = Watch.missedAlarm st /\ Watch.pctAlarm st' = Watch.pctAlarm st
  /\ forall url, url ∉ Node.Url <$> nodes ->
       Watch.nodeAlarms st' !! url = Watch.nodeAlarms st !! url.
Proof.
  induction nodes as [|node rest IH]; intros st st' es; simpl.
  - intros [= <- <-]. repeat split; first [apply onlyActive_refl | done].
  - rewrite andThen_Some. intros (st1 & e1 & e2 & H1 & H2 & ->).
    destruct (stepNode_only _ _ _ _ _ _ H1) as (A1 & N1 & M1 & P1 & U1).
    destruct (IH _ _ _ H2) as (A2 & N2 & M2 & P2 & U2).
    split; [by eapply onlyActive_trans|].
    split; [by rewrite N2|]. split; [by rewrite M2|]. split; [by rewrite P2|].
    intros url Hnot. apply not_elem_of_cons in Hnot as [Hne Hrest].
    by rewrite U2, U1.
Qed.

(** *** A block run again finds nothing to do *)

Lemma stepNoNodes_again st st' es :
  stepNoNodes st = Some (st', es) -> silent stepNoNodes st'.
Proof.
  unfold silent, stepNoNodes.
  destruct (CC.Alerts_AlertIfNoServers (Watch.cc st)) eqn:Ea,
           (Watch.noNodes st) eqn:Ef, (CC.noNodes (Watch.cc st)) eqn:Ec; simpl;
    try (destruct (CC.valInfo (Watch.cc st)); simpl; [|done]);
    intros [= <- <-]; simpl; by rewrite ?Ea, ?Ef, ?Ec.
Qed.

Lemma stepStalled_again now st st' es :
  stepStalled now st = Some (st', es) -> silent (stepStalled now) st'.
Proof.
  unfold silent, stepStalled.
  destruct (CC.Alerts_StalledAlerts (Watch.cc st)) eqn:Ea,
           (CC.lastBlockAlarm (Watch.cc st)) eqn:Ef,
           (time.IsZero (CC.lastBlockTime (Watch.cc st))) eqn:Ez,
           (stalledSince now (Watch.cc st)) eqn:Es; simpl;
    try (destruct (CC.valInfo (Watch.cc st)); simpl; [|done]);
    intros [= <- <-]; unfold stalledSince in *; simpl; by rewrite ?Ea, ?Ef, ?Ez, ?Es.
Qed.

Lemma stepConsecutive_again st st' es :
  stepConsecutive st = Some (st', es) -> silent stepConsecutive st'.
Proof.
  unfold silent, stepConsecutive.
  rewrite Z.ltb_antisym.
  destruct (Watch.missedAlarm st) eqn:Ef,
           (CC.Alerts_ConsecutiveAlerts (Watch.cc st)) eqn:Ea,
           (CC.Alerts_ConsecutiveMissed (Watch.cc st) <=? CC.statConsecutiveMiss (Watch.cc st))
             eqn:Eg; simpl;
    try (destruct (CC.valInfo (Watch.cc st)); simpl; [|done]);
    intros [= <- <-]; simpl; rewrite ?Z.ltb_antisym; by rewrite ?Ef, ?Ea, ?Eg.
Qed.

Lemma stepPercentage_again st st' es :
  stepPercentage st = Some (st', es) -> silent stepPercentage st'.
Proof.
  unfold silent, stepPercentage.
  destruct (CC.Alerts_PercentageAlerts (Watch.cc st)) eqn:Ea; simpl.
  2: { intros [= <- <-]. by rewrite Ea. }
  destruct (CC.valInfo (Watch.cc st)) as [vi|] eqn:Ev; simpl; [|done].
  destruct (Watch.pctAlarm st) eqn:Ef; simpl.
  - destruct (Go.float_lt _ _) eqn:El; intros [= <- <-]; simpl; rewrite Ea, Ev; simpl.
    + by rewrite (float_lt_not_gt _ _ El).
    + by rewrite Ef, El.
  - destruct (Go.float_gt _ _) eqn:Eg; intros [= <- <-]; simpl; rewrite Ea, Ev; simpl.
    + by rewrite (float_gt_not_lt _ _ Eg).
    + by rewrite Ef, Eg.
Qed.

Lemma stepNode_again td now node st st' es :
  stepNode td now node st = Some (st', es) -> silent (stepNode td now node) st'.
Proof.
  unfold silent, stepNode.
  destruct (Node.AlertIfDown node) eqn:Ea, (Node.down node) eqn:Ed,
           (Go.mapGet (Watch.nodeAlarms st) (Node.Url node)) eqn:Ef,
           (time.IsZero (Node.downSince node)) eqn:Ez,
           (downTooLong td now node) eqn:Et; simpl;
    intros [= <- <-]; simpl; rewrite ?mapGet_insert, ?decide_True by done;
    by rewrite ?Ef.
Qed.

(** *** Whether a block has something to do depends on its own flag only *)

Lemma silent_stepNoNodes_transfer st st' :
  sameChain st st' -> Watch.noNodes st' = Watch.noNodes st ->
  silent stepNoNodes st -> silent stepNoNodes st'.
Proof.
  unfold silent, stepNoNodes. intros (a & b & ->) ->. simpl.
  step_cases; by intros [= ].
Qed.

Lemma silent_stepStalled_transfer now st st' :
  onlyActive st st' -> silent (stepStalled now) st -> silent (stepStalled now) st'.
Proof.
  unfold silent, stepStalled, stalledSince. intros (a & ->). simpl.
  step_cases; by intros [= ].
Qed.

Lemma silent_stepConsecutive_transfer st st' :
  sameChain st st' -> Watch.missedAlarm st' = Watch.missedAlarm st ->
  silent stepConsecutive st -> silent stepConsecutive st'.
Proof.
  unfold silent, stepConsecutive. intros (a & b & ->) ->. simpl.
  step_cases; by intros [= ].
Qed.

Lemma silent_stepPercentage_transfer st st' :
  sameChain st st' -> Watch.pctAlarm st' = Watch.pctAlarm st ->
  silent stepPercentage st -> silent stepPercentage st'.
Proof.
  unfold silent, stepPercentage. intros (a & b & ->) ->. simpl.
  step_cases; by intros [= ].
Qed.

Lemma silent_stepNode_transfer td now node st st' :
  Watch.nodeAlarms st' !! Node.Url node = Watch.nodeAlarms st !! Node.Url node ->
  silent (stepNode td now node) st -> silent (stepNode td now node) st'.
Proof.
  unfold silent, stepNode, Go.mapGet. intros ->.
  step_cases; by intros [= ].
Qed.

Lemma stepNodes_silent td now nodes st :
  Forall (fun node => silent (stepNode td now node) st) nodes ->
  silent (stepNodes td now nodes) st.
Proof.
  unfold silent. induction 1 as [|node rest Hnode _ IH]; [done|].
  simpl. unfold andThen. rewrite Hnode. simpl. by rewrite IH.
Qed.

(** With pairwise distinct URLs, the loop over the nodes run again finds
    nothing to do. *)
Lemma stepNodes_again td now nodes : forall st st' es,
  NoDup (Node.Url <$> nodes) ->
  stepNodes td now nodes st = Some (st', es) ->
  Forall (fun node => silent (stepNode td now node) st') nodes.
Proof.
  induction nodes as [|node rest IH]; intros st st' es Hnd; simpl; [by constructor|].
  rewrite andThen_Some. intros (st1 & e1 & e2 & H1 & H2 & ->).
  apply NoDup_cons in Hnd as [Hfresh Hnd].
  constructor; [|by eapply IH].
  destruct (stepNodes_only _ _ _ _ _ _ H2) as (_ & _ & _ & _ & U2).
  eapply silent_stepNode_transfer; [by apply U2 | by eapply stepNode_again].
Qed.

Lemma sameChain_nodes st st' : sameChain st st' -> CC.Nodes (Watch.cc st') = CC.Nodes (Watch.cc st).
Proof. by intros (a & b & ->). Qed.

Lemma tick_blocks td now st st' es :
  tick td now st = Some (st', es) ->
  exists s1 s2 s3 s4 e1 e2 e3 e4 e5 e6,
    stepNoNodes st = Some (s1, e1) /\ stepStalled now s1 = Some (s2, e2)
    /\ stepConsecutive s2 = Some (s3, e3) /\ stepPercentage s3 = Some (s4, e4)
    /\ stepNodes td now (CC.Nodes (Watch.cc s4)) s4 = Some (st', e5)
    /\ stepProm td now st' = Some (st', e6)
    /\ es = e1 ++ e2 ++ e3 ++ e4 ++ e5 ++ e6.
Proof.
  unfold tick. rewrite andThen_Some. intros (s1 & e1 & ? & H1 & H & ->).
  rewrite andThen_Some in H. destruct H as (s2 & e2 & ? & H2 & H & ->).
  rewrite andThen_Some in H. destruct H as (s3 & e3 & ? & H3 & H & ->).
  rewrite andThen_Some in H. destruct H as (s4 & e4 & ? & H4 & H & ->).
  rewrite andThen_Some in H. destruct H as (s5 & e5 & e6 & H5 & H6 & ->).
  destruct (stepProm_effect _ _ _ _ _ H6) as [-> _].
  by exists s1, s2, s3, s4, e1, e2, e3, e4, e5, e6.
Qed.

(** X15. A pass repeated on the state it left, at the same instant, finds
    every alarm settled: it changes nothing and makes no [alert] call,
    provided the configured nodes have pairwise distinct URLs.  No alarm
    re-fires while its condition persists. *)
Theorem tick_again_is_silent (td : Config) (now : time.Time) (st st' : Watch.State)
    (es : list Event) :
  NoDup (nodeUrls (Watch.cc st)) ->
  tick td now st = Some (st', es) ->
  exists es', tick td now st' = Some (st', es') /\ alertCalls es' = [].
Proof.
  intros Hnd Htick.
  destruct (tick_blocks _ _ _ _ _ Htick)
    as (s1 & s2 & s3 & s4 & e1 & e2 & e3 & e4 & e5 & e6 & H1 & H2 & H3 & H4 & H5 & H6 & _).
  destruct (stepNoNodes_only _ _ _ H1) as (C1 & _).
  destruct (stepStalled_only _ _ _ _ H2) as (S2 & N2 & _).
  destruct (stepConsecutive_only _ _ _ H3) as (A3 & N3 & _).
  destruct (stepPercentage_only _ _ _ H4) as (A4 & N4 & M4 & _).
  destruct (stepNodes_only _ _ _ _ _ _ H5) as (A5 & N5 & M5 & P5 & _).
  pose proof (onlyActive_sameChain _ _ A3) as S3.
  pose proof (onlyActive_sameChain _ _ A4) as S4.
  pose proof (onlyActive_sameChain _ _ A5) as S5.
  assert (Q1 : silent stepNoNodes st').
  { eapply silent_stepNoNodes_transfer; [| |by eapply stepNoNodes_again].
    - eapply sameChain_trans; [exact S2|]. eapply sameChain_trans; [exact S3|].
      by eapply sameChain_trans.
    - by rewrite N5, N4, N3, N2. }
  assert (Q2 : silent (stepStalled now) st').
  { eapply silent_stepStalled_transfer; [|by eapply stepStalled_again].
    eapply onlyActive_trans; [exact A3|]. by eapply onlyActive_trans. }
  assert (Q3 : silent stepConsecutive st').
  { eapply silent_stepConsecutive_transfer; [| |by eapply stepConsecutive_again].
    - by eapply sameChain_trans.
    - by rewrite M5, M4. }
  assert (Q4 : silent stepPercentage st').
  { eapply silent_stepPercentage_transfer; [exact S5 | exact P5 | by eapply stepPercentage_again]. }
  assert (Hnodes : CC.Nodes (Watch.cc s4) = CC.Nodes (Watch.cc st)).
  { rewrite (sameChain_nodes _ _ S4), (sameChain_nodes _ _ S3), (sameChain_nodes _ _ S2).
    by rewrite C1. }
  assert (Q5 : silent (stepNodes td now (CC.Nodes (Watch.cc st'))) st').
  { rewrite (sameChain_nodes _ _ S5). apply stepNodes_silent.
    eapply stepNodes_again; [|exact H5]. unfold nodeUrls in Hnd. by rewrite Hnodes. }
  destruct (stepProm_effect _ _ _ _ _ H6) as [_ Hstats].
  exists e6. split; [|done].
  unfold tick, andThen. rewrite Q1. simpl. rewrite Q2. simpl. rewrite Q3. simpl.
  rewrite Q4. simpl. rewrite Q5. simpl. by rewrite H6.
Qed.

Lemma tick_again_is_silent_witness :
  exists es',
    tick Scenario.td0 Scenario.t0
      (default (startWatch Scenario.cc0)
         (fst <$> tick Scenario.td0 Scenario.t0
                    (observe (Scenario.sample Scenario.cc0 true Scenario.t0 7 Scenario.viMissing
                                [Scenario.nodeDown]) (startWatch Scenario.cc0))))
    = Some (default (startWatch Scenario.cc0)
              (fst <$> tick Scenario.td0 Scenario.t0
                         (observe (Scenario.sample Scenario.cc0 true Scenario.t0 7
                                     Scenario.viMissing [Scenario.nodeDown])
                            (startWatch Scenario.cc0))), es')
    /\ alertCalls es' = [].
Proof.
  apply (tick_again_is_silent Scenario.td0 Scenario.t0
           (observe (Scenario.sample Scenario.cc0 true Scenario.t0 7 Scenario.viMissing
                       [Scenario.nodeDown]) (startWatch Scenario.cc0))
           _
           [ AlertCall "chainA" "no RPC endpoints are working for a-1" "critical" false
               (Some "cons1");
             AlertCall "chainA" "val has missed 5 blocks on a-1" "critical" false
               (Some "cons1consecutive");
             AlertCall "chainA" "val has missed > 5% of the slashing window's blocks on a-1"
               "critical" false (Some "cons1percent");
             AlertCall "chainA" "RPC node tcp://n1:26657 has been down for > 10 minutes on a-1"
               "critical" false (Some "tcp://n1:26657") ]).
  - simpl. repeat constructor. intros H. by apply elem_of_nil in H.
  - vm_compute. reflexivity.
Defined.

Lemma tick_keeps_stalled_alarm td now st st' es :
  CC.lastBlockAlarm (Watch.cc st) = true ->
  time.IsZero (CC.lastBlockTime (Watch.cc st)) = false ->
  tick td now st = Some (st', es) ->
  CC.lastBlockAlarm (Watch.cc st') = true.
Proof.
  intros Hraised Hblock Htick.
  destruct (tick_blocks _ _ _ _ _ Htick)
    as (s1 & s2 & s3 & s4 & e1 & e2 & e3 & e4 & e5 & e6 & H1 & H2 & H3 & H4 & H5 & _).
  destruct (stepNoNodes_only _ _ _ H1) as (C1 & _).
  destruct (stepConsecutive_only _ _ _ H3) as (A3 & _).
  destruct (stepPercentage_only _ _ _ H4) as (A4 & _).
  destruct (stepNodes_only _ _ _ _ _ _ H5) as (A5 & _).
  destruct (onlyActive_trans _ _ _ (onlyActive_trans _ _ _ A3 A4) A5) as (a & ->). simpl.
  revert H2. unfold stepStalled. rewrite C1, Hraised, Hblock.
  destruct (CC.Alerts_StalledAlerts _); simpl; intros [= <- _]; by rewrite C1.
Qed.

(** X16. Once the stalled-chain alarm is raised it stays raised through
    every pass that reads a non-zero [lastBlockTime], however recent that
    block is: only a [lastBlockTime] reset to the zero time clears it. *)
Theorem stalled_alarm_survives_new_blocks (td : Config)
    (samples : list (time.Time * ChainConfig)) (st st' : Watch.State)
    (ess : list (list Event)) :
  CC.lastBlockAlarm (Watch.cc st) = true ->
  Forall (fun s : time.Time * ChainConfig => time.IsZero (CC.lastBlockTime s.2) = false)
    samples ->
  ticks td samples st = Some (st', ess) ->
  CC.lastBlockAlarm (Watch.cc st') = true.
Proof.
  intros Hraised Hall. revert st st' ess Hraised.
  induction Hall as [|[now sample] rest Hs _ IH]; intros st st' ess Hraised; simpl.
  - by intros [= <- _].
  - destruct (tick td now (observe sample st)) as [[st1 es]|] eqn:Ht; [|done]. simpl.
    destruct (ticks td rest st1) as [[st2 ess']|] eqn:Hr; [|done]. simpl.
    intros [= <- _]. eapply IH; [|exact Hr].
    by eapply tick_keeps_stalled_alarm; [| |exact Ht].
Qed.

Lemma stalled_alarm_survives_new_blocks_witness :
  CC.lastBlockAlarm
    (Watch.cc (default (startWatch Scenario.cc0)
                 (fst <$> ticks Scenario.td0
                            [ (Scenario.t0 + 12 * time.Minute,
                               Scenario.sample Scenario.cc0 false
                                 (Scenario.t0 + 12 * time.Minute) 0 Scenario.vi0
                                 [Scenario.node0]) ]
                            (set_lastBlockAlarm true (startWatch Scenario.cc0))))) = true.
Proof.
  apply (stalled_alarm_survives_new_blocks Scenario.td0
           [ (Scenario.t0 + 12 * time.Minute,
              Scenario.sample Scenario.cc0 false (Scenario.t0 + 12 * time.Minute) 0
                Scenario.vi0 [Scenario.node0]) ]
           (set_lastBlockAlarm true (startWatch Scenario.cc0)) _ [ [] ]).
  - reflexivity.
  - repeat constructor.
  - vm_compute. reflexivity.
Defined.

Lemma tick_nodeAlarms_outside td now st st' es url :
  url ∉ nodeUrls (Watch.cc st) ->
  tick td now st = Some (st', es) ->
  Watch.nodeAlarms st' !! url = Watch.nodeAlarms st !! url.
Proof.
  intros Hout Htick.
  destruct (tick_blocks _ _ _ _ _ Htick)
    as (s1 & s2 & s3 & s4 & e1 & e2 & e3 & e4 & e5 & e6 & H1 & H2 & H3 & H4 & H5 & _).
  destruct (stepNoNodes_only _ _ _ H1) as (C1 & _ & _ & U1).
  destruct (stepStalled_only _ _ _ _ H2) as (S2 & _ & _ & _ & U2).
  destruct (stepConsecutive_only _ _ _ H3) as (A3 & _ & _ & U3).
  destruct (stepPercentage_only _ _ _ H4) as (A4 & _ & _ & U4).
  destruct (stepNodes_only _ _ _ _ _ _ H5) as (_ & _ & _ & _ & U5).
  rewrite U5, U4, U3, U2, U1; [done|].
  rewrite (sameChain_nodes _ _ (onlyActive_sameChain _ _ A4)),
          (sameChain_nodes _ _ (onlyActive_sameChain _ _ A3)),
          (sameChain_nodes _ _ S2), C1.
  exact Hout.
Qed.

(** X17. The monitor writes its per-node alarm memory at the URLs of the
    configured nodes only: over any run, the entry of a URL that none of the
    samples lists among [cc.Nodes] is left as it was.  An alarm raised for a
    node that has since left the configuration is never cleared. *)
Theorem nodeAlarm_outside_config_is_kept (td : Config)
    (samples : list (time.Time * ChainConfig)) (st st' : Watch.State)
    (ess : list (list Event)) (url : string) :
  Forall (fun s : time.Time * ChainConfig => url ∉ nodeUrls s.2) samples ->
  ticks td samples st = Some (st', ess) ->
  Watch.nodeAlarms st' !! url = Watch.nodeAlarms st !! url.
Proof.
  intros Hall. revert st st' ess.
  induction Hall as [|[now sample] rest Hs _ IH]; intros st st' ess; simpl.
  - by intros [= <- _].
  - destruct (tick td now (observe sample st)) as [[st1 es]|] eqn:Ht; [|done]. simpl.
    destruct (ticks td rest st1) as [[st2 ess']|] eqn:Hr; [|done]. simpl.
    intros [= <- _]. rewrite (IH _ _ _ Hr).
    assert (Hs' : url ∉ nodeUrls (Watch.cc (observe sample st))) by done.
    by rewrite (tick_nodeAlarms_outside _ _ _ _ _ url Hs' Ht).
Qed.

Lemma nodeAlarm_outside_config_is_kept_witness :
  Watch.nodeAlarms
    (default (startWatch Scenario.cc0)
       (fst <$> ticks Scenario.td0 Scenario.degradedThenRecovered
                  (set_nodeAlarm "tcp://gone:26657" true (startWatch Scenario.cc0))))
    !! "tcp://gone:26657"
  = Watch.nodeAlarms (set_nodeAlarm "tcp://gone:26657" true (startWatch Scenario.cc0))
      !! "tcp://gone:26657".
Proof.
  apply (nodeAlarm_outside_config_is_kept Scenario.td0 Scenario.degradedThenRecovered
           (set_nodeAlarm "tcp://gone:26657" true (startWatch Scenario.cc0)) _
           [ [ AlertCall "chainA" "val has missed > 5% of the slashing window's blocks on a-1"
                 "critical" false (Some "cons1percent");
               AlertCall "chainA" "RPC node tcp://n1:26657 has been down for > 10 minutes on a-1"
                 "critical" false (Some "tcp://n1:26657") ];
             [ AlertCall "chainA" "val has missed > 5% of the slashing window's blocks on a-1"
                 "critical" false (Some "cons1percent");
               AlertCall "chainA" "RPC node tcp://n1:26657 has been down for > 10 minutes on a-1"
                 "critical" false (Some "tcp://n1:26657") ] ]).
  - repeat constructor; simpl; intros H; apply list_elem_of_singleton in H; discriminate.
  - vm_compute. reflexivity.
Defined.

(** X18. With [AlertIfNoServers] set and the validator record present, the
    no-reachable-RPC block makes the monitor's flag equal to [cc.noNodes]:
    it calls [alert] exactly when the two differed, once, with resolved set
    to the flag's previous value (false on the way up, true on the way
    down).  With [AlertIfNoServers] unset it does nothing. *)
Theorem stepNoNodes_follows_flag (st : Watch.State) (vi : ValInfo) :
  CC.valInfo (Watch.cc st) = Some vi ->
  let cc := Watch.cc st in
  if CC.Alerts_AlertIfNoServers cc then
    exists st', stepNoNodes st
                = Some (st', if bool_decide (Watch.noNodes st = CC.noNodes cc) then []
                             else [AlertCall (CC.name cc) (noNodesMessage cc) "critical"
                                     (Watch.noNodes st) (Some (Val.Valcons vi))])
      /\ Watch.noNodes st' = CC.noNodes cc
  else stepNoNodes st = Some (st, []).
Proof.
  intros Hvi cc. subst cc. unfold stepNoNodes. rewrite Hvi.
  destruct (CC.Alerts_AlertIfNoServers _), (Watch.noNodes st) eqn:Ef, (CC.noNodes _) eqn:Ec;
    simpl; try done; eexists; (split; [reflexivity|]); by simpl.
Qed.

Lemma stepNoNodes_follows_flag_witness :
  let st := observe (Scenario.sample Scenario.cc0 true Scenario.t0 0 Scenario.vi0
                       [Scenario.node0]) (startWatch Scenario.cc0) in
  let cc := Watch.cc st in
  if CC.Alerts_AlertIfNoServers cc then
    exists st', stepNoNodes st
                = Some (st', if bool_decide (Watch.noNodes st = CC.noNodes cc) then []
                             else [AlertCall (CC.name cc) (noNodesMessage cc) "critical"
                                     (Watch.noNodes st) (Some (Val.Valcons Scenario.vi0))])
      /\ Watch.noNodes st' = CC.noNodes cc
  else stepNoNodes st = Some (st, []).
Proof.
  apply (stepNoNodes_follows_flag
           (observe (Scenario.sample Scenario.cc0 true Scenario.t0 0 Scenario.vi0
                       [Scenario.node0]) (startWatch Scenario.cc0)) Scenario.vi0).
  reflexivity.
Defined.

(** *** What a pass emits *)

Lemma callShape_isAlertCall name es :
  Forall (callShape name) es -> alertCalls es = es /\ statsSends es = [].
Proof.
  unfold alertCalls, statsSends.
  induction 1 as [|e rest (t & r & i & ->) _ [IH1 IH2]]; [done|].
  rewrite !filter_cons. simpl. by rewrite IH1, IH2.
Qed.

Ltac calls_inv :=
  step_cases; intros [= <- <-]; simpl; (split; [|lia]);
  repeat constructor; by eexists _, _, _.

Lemma stepNoNodes_calls st st' es :
  stepNoNodes st = Some (st', es) ->
  Forall (callShape (CC.name (Watch.cc st))) es /\ (length es <= 1)%nat.
Proof. unfold stepNoNodes. calls_inv. Qed.

Lemma stepStalled_calls now st st' es :
  stepStalled now st = Some (st', es) ->
  Forall (callShape (CC.name (Watch.cc st))) es /\ (length es <= 1)%nat.
Proof. unfold stepStalled. calls_inv. Qed.

Lemma stepConsecutive_calls st st' es :
  stepConsecutive st = Some (st', es) ->
  Forall (callShape (CC.name (Watch.cc st))) es /\ (length es <= 1)%nat.
Proof. unfold stepConsecutive. calls_inv. Qed.

Lemma stepPercentage_calls st st' es :
  stepPercentage st = Some (st', es) ->
  Forall (callShape (CC.name (Watch.cc st))) es /\ (length es <= 1)%nat.
Proof. unfold stepPercentage. calls_inv. Qed.

Lemma stepNode_calls td now node st st' es :
  stepNode td now node st = Some (st', es) ->
  Forall (callShape (CC.name (Watch.cc st))) es /\ (length es <= 1)%nat.
Proof. unfold stepNode. calls_inv. Qed.

Lemma sameChain_name st st' : sameChain st st' -> CC.name (Watch.cc st') = CC.name (Watch.cc st).
Proof. by intros (a & b & ->). Qed.

Lemma stepNodes_calls td now nodes : forall st st' es,
  stepNodes td now nodes st = Some (st', es) ->
  Forall (callShape (CC.name (Watch.cc st))) es /\ (length es <= length nodes)%nat.
Proof.
  induction nodes as [|node rest IH]; intros st st' es; simpl.
  - intros [= <- <-]. by split.
  - rewrite andThen_Some. intros (st1 & e1 & e2 & H1 & H2 & ->).
    destruct (stepNode_calls _ _ _ _ _ _ H1) as [F1 L1].
    destruct (IH _ _ _ H2) as [F2 L2].
    destruct (stepNode_only _ _ _ _ _ _ H1) as (A1 & _).
    rewrite (sameChain_name _ _ (onlyActive_sameChain _ _ A1)) in F2.
    split; [by apply Forall_app | rewrite length_app; lia].
Qed.

Lemma stepProm_stats td now st :
  exists stats, stepProm td now st = Some (st, stats)
    /\ alertCalls stats = [] /\ statsSends stats = stats
    /\ length stats = if Cfg.Prom td then S (length (reportedDown (Watch.cc st))) else 0%nat.
Proof.
  unfold stepProm. destruct (Cfg.Prom td); [|by exists []].
  eexists. split; [reflexivity|]. unfold alertCalls, statsSends, nodeDownStats, reportedDown.
  rewrite !filter_cons. simpl.
  induction (CC.Nodes (Watch.cc st)) as [|node rest (IH1 & IH2 & IH3)]; [done|].
  simpl. rewrite filter_cons. destruct (_ && _) eqn:E; simpl.
  - rewrite !filter_cons. simpl.
    injection IH2 as IH2. injection IH3 as IH3. by rewrite IH1, IH2, IH3.
  - done.
Qed.

(** X19. Every [alert] call of a pass is for the watched chain, with
    severity critical and an explicit id (the validator-address default of
    [alert] is never used); a pass makes at most one call per condition, so
    at most four plus one per configured node; and all its calls come before
    its metric sends, of which there are one plus one per node that is down
    with a down-since time when [td.Prom] is set, and none otherwise. *)
Theorem tick_emits (td : Config) (now : time.Time) (st st' : Watch.State) (es : list Event) :
  tick td now st = Some (st', es) ->
  Forall (callShape (CC.name (Watch.cc st))) (alertCalls es)
  /\ (length (alertCalls es) <= 4 + length (CC.Nodes (Watch.cc st)))%nat
  /\ es = alertCalls es ++ statsSends es
  /\ length (statsSends es)
     = if Cfg.Prom td then S (length (reportedDown (Watch.cc st))) else 0%nat.
Proof.
  intros Htick.
  destruct (tick_blocks _ _ _ _ _ Htick)
    as (s1 & s2 & s3 & s4 & e1 & e2 & e3 & e4 & e5 & e6 & H1 & H2 & H3 & H4 & H5 & H6 & ->).
  destruct (stepNoNodes_only _ _ _ H1) as (C1 & _).
  destruct (stepStalled_only _ _ _ _ H2) as (S2 & _).
  destruct (stepConsecutive_only _ _ _ H3) as (A3 & _).
  destruct (stepPercentage_only _ _ _ H4) as (A4 & _).
  destruct (stepNodes_only _ _ _ _ _ _ H5) as (A5 & _).
  pose proof (onlyActive_sameChain _ _ A3) as S3.
  pose proof (onlyActive_sameChain _ _ A4) as S4.
  pose proof (onlyActive_sameChain _ _ A5) as S5.
  destruct (stepNoNodes_calls _ _ _ H1) as [F1 L1].
  destruct (stepStalled_calls _ _ _ _ H2) as [F2 L2].
  destruct (stepConsecutive_calls _ _ _ H3) as [F3 L3].
  destruct (stepPercentage_calls _ _ _ H4) as [F4 L4].
  destruct (stepNodes_calls _ _ _ _ _ _ H5) as [F5 L5].
  assert (N1 : CC.name (Watch.cc s1) = CC.name (Watch.cc st)) by (by rewrite C1).
  assert (N2 : CC.name (Watch.cc s2) = CC.name (Watch.cc st))
    by (by rewrite (sameChain_name _ _ S2)).
  assert (N3 : CC.name (Watch.cc s3) = CC.name (Watch.cc st))
    by (by rewrite (sameChain_name _ _ S3)).
  assert (N4 : CC.name (Watch.cc s4) = CC.name (Watch.cc st))
    by (by rewrite (sameChain_name _ _ S4)).
  rewrite N1 in F2. rewrite N2 in F3. rewrite N3 in F4. rewrite N4 in F5.
  assert (K4 : CC.Nodes (Watch.cc s4) = CC.Nodes (Watch.cc st)).
  { rewrite (sameChain_nodes _ _ S4), (sameChain_nodes _ _ S3), (sameChain_nodes _ _ S2).
    by rewrite C1. }
  assert (K5 : reportedDown (Watch.cc st') = reportedDown (Watch.cc st)).
  { unfold reportedDown. by rewrite (sameChain_nodes _ _ S5), K4. }
  rewrite K4 in L5.
  destruct (stepProm_stats td now st') as (stats & H6' & P1 & P2 & P3).
  rewrite H6' in H6. injection H6 as <-.
  assert (Fall : Forall (callShape (CC.name (Watch.cc st))) (e1 ++ e2 ++ e3 ++ e4 ++ e5))
    by (repeat apply Forall_app_2; done).
  destruct (callShape_isAlertCall _ _ Fall) as [Ha Hs].
  replace (e1 ++ e2 ++ e3 ++ e4 ++ e5 ++ stats)
    with ((e1 ++ e2 ++ e3 ++ e4 ++ e5) ++ stats) by (by rewrite <- !app_assoc).
  assert (Lall : (length (e1 ++ e2 ++ e3 ++ e4 ++ e5)
                  <= 4 + length (CC.Nodes (Watch.cc st)))%nat)
    by (rewrite !length_app; lia).
  remember (e1 ++ e2 ++ e3 ++ e4 ++ e5) as calls.
  unfold alertCalls, statsSends in *. rewrite !filter_app, Ha, Hs, P1, P2, app_nil_r.
  split; [done|]. split; [done|]. split; [done|].
  simpl. by rewrite P3, K5.
Qed.

Lemma tick_emits_witness :
  let st := observe (Scenario.sample Scenario.cc0 false Scenario.t0 0 Scenario.viMissing
                       [Scenario.nodeDown]) (startWatch Scenario.cc0) in
  let es :=
    [ AlertCall "chainA" "val has missed > 5% of the slashing window's blocks on a-1"
        "critical" false (Some "cons1percent");
      AlertCall "chainA" "RPC node tcp://n1:26657 has been down for > 10 minutes on a-1"
        "critical" false (Some "tcp://n1:26657") ] in
  Forall (callShape (CC.name (Watch.cc st))) (alertCalls es)
  /\ (length (alertCalls es) <= 4 + length (CC.Nodes (Watch.cc st)))%nat
  /\ es = alertCalls es ++ statsSends es
  /\ length (statsSends es)
     = if Cfg.Prom Scenario.td0 then S (length (reportedDown (Watch.cc st))) else 0%nat.
Proof.
  apply (tick_emits Scenario.td0 Scenario.t0
           (observe (Scenario.sample Scenario.cc0 false Scenario.t0 0 Scenario.viMissing
                       [Scenario.nodeDown]) (startWatch Scenario.cc0))
           (default (startWatch Scenario.cc0)
              (fst <$> tick Scenario.td0 Scenario.t0
                         (observe (Scenario.sample Scenario.cc0 false Scenario.t0 0
                                     Scenario.viMissing [Scenario.nodeDown])
                            (startWatch Scenario.cc0))))).
  vm_compute. reflexivity.
Defined.

(** X20. When the validator record reads no missed block in a window of
    size 0, the ratio [100*0/0] is NaN, which is neither above nor below any
    threshold: the percentage block then neither triggers nor clears,
    whatever the threshold and whether or not the alarm is raised. *)
Theorem stepPercentage_empty_window (st : Watch.State) (vi : ValInfo) :
  CC.Alerts_PercentageAlerts (Watch.cc st) = true ->
  CC.valInfo (Watch.cc st) = Some vi ->
  Val.Missed vi = 0 -> Val.Window vi = 0 ->
  stepPercentage st = Some (st, []).
Proof.
  intros Hon Hvi Hm Hw. unfold stepPercentage. rewrite Hon, Hvi. simpl.
  replace (missedPercent vi) with PrimFloat.nan
    by (unfold missedPercent; by rewrite Hm, Hw).
  destruct (float_nan_unordered (Go.float64_of_int (CC.Alerts_Window (Watch.cc st))))
    as [-> ->].
  by rewrite !andb_false_r.
Qed.

Lemma stepPercentage_empty_window_witness :
  stepPercentage
    (set_pctAlarm true
       (observe (Scenario.sample Scenario.cc0 false Scenario.t0 0 Scenario.viEmptyWindow
                   [Scenario.node0]) (startWatch Scenario.cc0)))
  = Some (set_pctAlarm true
            (observe (Scenario.sample Scenario.cc0 false Scenario.t0 0 Scenario.viEmptyWindow
                        [Scenario.node0]) (startWatch Scenario.cc0)), []).
Proof.
  apply (stepPercentage_empty_window
           (set_pctAlarm true
              (observe (Scenario.sample Scenario.cc0 false Scenario.t0 0
                          Scenario.viEmptyWindow [Scenario.node0]) (startWatch Scenario.cc0)))
           Scenario.viEmptyWindow); reflexivity.
Defined.

(** *** The first loop *)

Lemma watchFrom_waiting td samples : forall st st' ess,
  Forall (fun s : time.Time * ChainConfig => connected s.2 = false) samples ->
  watchFrom td samples st = Some (st', ess) ->
  activeAlertsOf st' = activeAlertsOf st
  /\ Forall (fun e => isAlertCall e = true /\ isResolve e = false) (concat ess)
  /\ (length (concat ess) <= if Watch.noNodes st then 0 else 1)%nat.
Proof.
  induction samples as [|[now sample] rest IH]; intros st st' ess Hall; simpl.
  - intros [= <- <-]. repeat split; [constructor | simpl; lia].
  - apply Forall_cons in Hall as [Hs Hrest]. simpl in Hs.
    replace (connected (with_owned (CC.lastBlockAlarm (Watch.cc st))
                          (CC.activeAlerts (Watch.cc st)) sample))
      with (connected sample) by done.
    rewrite Hs.
    destruct (waitPass (observe sample st)) as [[st1 es]|] eqn:Hw; [|done]. simpl.
    destruct (watchFrom td rest st1) as [[st2 ess']|] eqn:Hr; [|done]. simpl.
    intros [= <- <-]. destruct (IH _ _ _ Hrest Hr) as (Ha & Hf & Hl).
    revert Hw. unfold waitPass. simpl.
    destruct (CC.Alerts_AlertIfNoServers sample && negb (Watch.noNodes st) && CC.noNodes sample)
      eqn:Ec.
    + destruct (CC.valInfo sample); simpl; [|done]. intros [= <- <-].
      bool_hyps. simpl in *.
      replace (Watch.noNodes st) with false.
      split; [done|]. split; [by constructor|]. simpl. lia.
    + intros [= <- <-]. simpl in *. split; [done|]. by split.
Qed.

(** X21. As long as no sample shows a moniker, [watch] stays in its first
    loop, where it makes at most one [alert] call in all, never with
    resolved = true, sends no metric, and leaves [activeAlerts] at the value
    it started with. *)
Theorem watch_first_loop (td : Config) (cc : ChainConfig)
    (samples : list (time.Time * ChainConfig)) (st : Watch.State) (ess : list (list Event)) :
  Forall (fun s : time.Time * ChainConfig => connected s.2 = false) samples ->
  watch td cc samples = Some (st, ess) ->
  activeAlertsOf st = CC.activeAlerts cc
  /\ Forall (fun e => isAlertCall e = true /\ isResolve e = false) (concat ess)
  /\ (length (concat ess) <= 1)%nat.
Proof.
  intros Hall Hrun. by destruct (watchFrom_waiting td samples _ _ _ Hall Hrun) as (? & ? & ?).
Qed.

Lemma watch_first_loop_witness :
  let waiting :=
    Scenario.sample Scenario.cc0 true Scenario.t0 0
      {| Val.Moniker := "not connected"; Val.Valcons := "cons1";
         Val.Missed := 0; Val.Window := 100 |} [Scenario.node0] in
  let samples := [ (Scenario.t0, waiting); (Scenario.t0 + time.Second, waiting) ] in
  let st := default (startWatch Scenario.cc0) (fst <$> watch Scenario.td0 Scenario.cc0 samples) in
  let ess := [ [AlertCall "chainA" "no RPC endpoints are working for a-1" "critical" false
                  (Some "cons1")]; [] ] in
  activeAlertsOf st = CC.activeAlerts Scenario.cc0
  /\ Forall (fun e => isAlertCall e = true /\ isResolve e = false) (concat ess)
  /\ (length (concat ess) <= 1)%nat.
Proof.
  apply (watch_first_loop Scenario.td0 Scenario.cc0
           [ (Scenario.t0,
              Scenario.sample Scenario.cc0 true Scenario.t0 0
                {| Val.Moniker := "not connected"; Val.Valcons := "cons1";
                   Val.Missed := 0; Val.Window := 100 |} [Scenario.node0]);
             (Scenario.t0 + time.Second,
              Scenario.sample Scenario.cc0 true Scenario.t0 0
                {| Val.Moniker := "not connected"; Val.Valcons := "cons1";
                   Val.Missed := 0; Val.Window := 100 |} [Scenario.node0]) ]).
  - repeat constructor.
  - vm_compute. reflexivity.
Defined.

(** *** From the monitor to the dashboard *)

Lemma lastResolved_app chain text es1 es2 :
  lastResolved chain text (es1 ++ es2)
  = match lastResolved chain text es2 with
    | Some r => Some r
    | None => lastResolved chain text es1
    end.
Proof.
  induction es1 as [|e es1 IH]; simpl.
  - by destruct (lastResolved chain text es2).
  - rewrite IH. by destruct (lastResolved chain text es2).
Qed.

Lemma lastResolved_alertCalls chain text es :
  lastResolved chain text (alertCalls es) = lastResolved chain text es.
Proof.
  unfold alertCalls. induction es as [|e es IH]; [done|].
  rewrite filter_cons. destruct e as [c t s r i | u].
  - rewrite decide_True by done. cbn [lastResolved]. by rewrite IH.
  - rewrite decide_False by done. cbn [lastResolved isCallFor]. rewrite IH.
    by destruct (lastResolved chain text es).
Qed.

Lemma lastResolved_concat chain text ess :
  lastResolved chain text (concat ess)
  = lastResolved chain text (concat (alertCalls <$> ess)).
Proof.
  induction ess as [|es ess IH]; [done|].
  simpl. rewrite !lastResolved_app, IH. by rewrite lastResolved_alertCalls.
Qed.

Lemma lastResolved_consecutiveCalls cc vi chain text os :
  lastResolved chain text (concat (consecutiveCalls cc vi <$> os))
  = if bool_decide (CC.name cc = chain) && bool_decide (consecutiveMessage cc vi = text)
    then lastSome os else None.
Proof.
  induction os as [|o os IH]; [by destruct (_ && _)|].
  rewrite fmap_cons. cbn [concat lastSome]. rewrite lastResolved_app, IH.
  assert (Hone : lastResolved chain text (consecutiveCalls cc vi o)
                 = if bool_decide (CC.name cc = chain)
                      && bool_decide (consecutiveMessage cc vi = text)
                   then o else None).
  { destruct o as [r|]; [|by destruct (_ && _)].
    unfold consecutiveCalls, consecutiveCall. cbn [lastResolved isCallFor isResolve].
    by destruct (_ && _). }
  rewrite Hone.
  destruct (bool_decide (CC.name cc = chain) && bool_decide (consecutiveMessage cc vi = text));
    [|done].
  by destruct (lastSome os).
Qed.

Lemma specConsecutive_lastSome enabled threshold counters : forall alarm,
  (specConsecutive enabled threshold alarm counters).1
  = match lastSome (specConsecutive enabled threshold alarm counters).2 with
    | Some resolved => negb resolved
    | None => alarm
    end.
Proof.
  induction counters as [|n rest IH]; intros alarm; [done|].
  cbn [specConsecutive fst snd lastSome]. rewrite IH.
  destruct (lastSome _); [done|].
  unfold specConsecutivePass.
  destruct alarm, enabled, (threshold <=? n), (n <? threshold); done.
Qed.

Lemma Forall_callConfigured td name es :
  is_Some (Cfg.Chains td !! name) ->
  Forall (callShape name) (alertCalls es) -> Forall (callConfigured td) es.
Proof.
  intros Hcfg. unfold alertCalls. induction es as [|e es IH]; [constructor|].
  rewrite filter_cons. destruct e as [c t s r i | u]; simpl.
  - intros Hall. apply Forall_cons in Hall as [(t' & r' & i' & [= -> _ _ _ _]) Hrest].
    constructor; [done | by apply IH].
  - intros Hall. constructor; [done | by apply IH].
Qed.

Lemma tick_calls_shape td now st st' es :
  tick td now st = Some (st', es) ->
  Forall (callShape (CC.name (Watch.cc st))) (alertCalls es).
Proof.
  intros Htick.
  destruct (tick_blocks _ _ _ _ _ Htick)
    as (s1 & s2 & s3 & s4 & e1 & e2 & e3 & e4 & e5 & e6 & H1 & H2 & H3 & H4 & H5 & H6 & ->).
  destruct (stepNoNodes_only _ _ _ H1) as (C1 & _).
  destruct (stepStalled_only _ _ _ _ H2) as (S2 & _).
  destruct (stepConsecutive_only _ _ _ H3) as (A3 & _).
  destruct (stepPercentage_only _ _ _ H4) as (A4 & _).
  pose proof (onlyActive_sameChain _ _ A3) as S3.
  pose proof (onlyActive_sameChain _ _ A4) as S4.
  destruct (stepNoNodes_calls _ _ _ H1) as [F1 _].
  destruct (stepStalled_calls _ _ _ _ H2) as [F2 _].
  destruct (stepConsecutive_calls _ _ _ H3) as [F3 _].
  destruct (stepPercentage_calls _ _ _ H4) as [F4 _].
  destruct (stepNodes_calls _ _ _ _ _ _ H5) as [F5 _].
  rewrite (sameChain_name _ _ S4), (sameChain_name _ _ S3), (sameChain_name _ _ S2), C1 in F5.
  rewrite (sameChain_name _ _ S3), (sameChain_name _ _ S2), C1 in F4.
  rewrite (sameChain_name _ _ S2), C1 in F3. rewrite C1 in F2.
  destruct (stepProm_effect _ _ _ _ _ H6) as [_ Hstats].
  assert (Fall : Forall (callShape (CC.name (Watch.cc st))) (e1 ++ e2 ++ e3 ++ e4 ++ e5))
    by (repeat apply Forall_app_2; done).
  destruct (callShape_isAlertCall _ _ Fall) as [Ha _].
  replace (e1 ++ e2 ++ e3 ++ e4 ++ e5 ++ e6)
    with ((e1 ++ e2 ++ e3 ++ e4 ++ e5) ++ e6) by (by rewrite <- !app_assoc).
  remember (e1 ++ e2 ++ e3 ++ e4 ++ e5) as calls.
  unfold alertCalls in *. by rewrite filter_app, Ha, Hstats, app_nil_r.
Qed.

Lemma ticks_calls_configured td samples : forall st st' ess name,
  is_Some (Cfg.Chains td !! name) ->
  Forall (fun s : time.Time * ChainConfig => CC.name s.2 = name) samples ->
  ticks td samples st = Some (st', ess) ->
  Forall (callConfigured td) (concat ess).
Proof.
  induction samples as [|[now sample] rest IH]; intros st st' ess name Hcfg Hall; simpl.
  - intros [= <- <-]. constructor.
  - apply Forall_cons in Hall as [Hn Hrest]. simpl in Hn.
    destruct (tick td now (observe sample st)) as [[st1 es]|] eqn:Ht; [|done]. simpl.
    destruct (ticks td rest st1) as [[st2 ess']|] eqn:Hr; [|done]. simpl.
    intros [= <- <-]. simpl. apply Forall_app. split; [|by eapply IH].
    eapply (Forall_callConfigured td name); [done|].
    pose proof (tick_calls_shape td now _ _ _ Ht) as Hshape.
    simpl in Hshape. by rewrite Hn in Hshape.
Qed.

Lemma feedCounters_names cc passes :
  Forall (fun s : time.Time * ChainConfig => CC.name s.2 = CC.name cc) (feedCounters cc passes).
Proof. unfold feedCounters. apply Forall_fmap. by apply Forall_true. Qed.

(** X22. The consecutive-miss alarm seen from the dashboard.  On a
    configured chain where only this alarm is switched on, run [watch]'s
    second loop over any sequence of counter values and carry out its
    [alert] calls from the empty registry: the registry then holds for the
    chain the consecutive-miss text, and nothing else, if the monitor holds
    the alarm raised, and no text at all if it does not. *)
Theorem consecutive_run_on_dashboard (td : Config) (cc : ChainConfig) (vi : ValInfo)
    (passes : list (time.Time * Z)) :
  onlyConsecutive cc -> CC.valInfo cc = Some vi ->
  is_Some (Cfg.Chains td !! CC.name cc) ->
  exists st ess w,
    ticks td (feedCounters cc passes) (startWatch cc) = Some (st, ess)
    /\ performEvents td (concat ess) emptyWorld = Some w
    /\ alarmsOf (CC.name cc) w
       = if Watch.missedAlarm st then {[ consecutiveMessage cc vi := true ]} else ∅.
Proof.
  intros Honly Hvi Hcfg. destruct (startWatch_quiet cc) as [Hquiet _].
  destruct (ticks_onlyConsecutive td cc vi passes (startWatch cc) Honly Hvi Hquiet)
    as (st & ess & Hr & Hess & Hm & _).
  pose proof (ticks_calls_configured td _ _ _ _ _ Hcfg (feedCounters_names cc passes) Hr)
    as Hconf.
  destruct (performEvents_configured td (concat ess) emptyWorld Hconf) as [w Hw].
  exists st, ess, w. split; [done|]. split; [done|].
  rewrite specConsecutive_lastSome in Hm. simpl in Hm.
  apply map_eq. intros text.
  destruct (performEvents_entry td (concat ess) _ _ (CC.name cc) text
              emptyWorld_registryClean Hw) as [_ ->].
  rewrite lastResolved_concat, Hess, lastResolved_consecutiveCalls.
  rewrite bool_decide_eq_true_2 by done. simpl.
  replace (alarmsOf (CC.name cc) emptyWorld !! text) with (@None bool)
    by (unfold alarmsOf; simpl; by rewrite lookup_empty).
  rewrite Hm.
  destruct (decide (consecutiveMessage cc vi = text)) as [<-|Hne].
  - rewrite bool_decide_eq_true_2 by done.
    destruct (lastSome _) as [[]|]; simpl;
      by rewrite ?lookup_empty, ?lookup_singleton_eq.
  - rewrite bool_decide_eq_false_2 by done.
    destruct (lastSome _) as [[]|]; simpl;
      by rewrite ?lookup_empty, ?lookup_singleton_ne.
Qed.

Lemma consecutive_run_on_dashboard_witness :
  exists st ess w,
    ticks Scenario.td0
      (feedCounters Scenario.ccConsecutive [(1, 3); (2, 6); (3, 9)])
      (startWatch Scenario.ccConsecutive) = Some (st, ess)
    /\ performEvents Scenario.td0 (concat ess) emptyWorld = Some w
    /\ alarmsOf (CC.name Scenario.ccConsecutive) w
       = if Watch.missedAlarm st
         then {[ consecutiveMessage Scenario.ccConsecutive Scenario.vi0 := true ]} else ∅.
Proof.
  apply (consecutive_run_on_dashboard Scenario.td0 Scenario.ccConsecutive Scenario.vi0
           [(1, 3); (2, 6); (3, 9)]).
  - repeat split; simpl; constructor.
  - reflexivity.
  - vm_compute. eauto.
Defined.

Lemma alertCalls_concat ess : alertCalls (concat ess) = concat (alertCalls <$> ess).
Proof.
  unfold alertCalls. induction ess as [|es ess IH]; [done|].
  simpl. by rewrite filter_app, IH.
Qed.

Lemma isResolve_consecutiveCalls cc vi os :
  isResolve <$> concat (consecutiveCalls cc vi <$> os) = omap id os.
Proof.
  induction os as [|o os IH]; [done|].
  rewrite fmap_cons. cbn [concat]. rewrite fmap_app, IH. by destruct o.
Qed.

Lemma specConsecutive_alternates enabled threshold counters : forall alarm,
  alternates alarm (omap id (specConsecutive enabled threshold alarm counters).2).
Proof.
  induction counters as [|n rest IH]; intros alarm; [done|].
  cbn [specConsecutive fst snd omap]. unfold specConsecutivePass at 2.
  pose proof (IH (specConsecutivePass enabled threshold alarm n).1) as Hrest.
  revert Hrest. unfold specConsecutivePass.
  destruct alarm, enabled, (threshold <=? n), (n <? threshold); simpl; by try split.
Qed.

(** X23. On a chain where only the consecutive-miss alarm is switched on,
    for every sequence of counter values and every threshold, the [alert]
    calls of the run alternate: the first is a trigger, each trigger is
    followed by a resolution and each resolution by a trigger.  No counter
    sequence makes the alarm fire twice in a row. *)
Theorem consecutive_calls_alternate (td : Config) (cc : ChainConfig) (vi : ValInfo)
    (passes : list (time.Time * Z)) :
  onlyConsecutive cc -> CC.valInfo cc = Some vi ->
  exists st ess,
    ticks td (feedCounters cc passes) (startWatch cc) = Some (st, ess)
    /\ alternates false (isResolve <$> alertCalls (concat ess)).
Proof.
  intros Honly Hvi. destruct (startWatch_quiet cc) as [Hquiet _].
  destruct (ticks_onlyConsecutive td cc vi passes (startWatch cc) Honly Hvi Hquiet)
    as (st & ess & Hr & Hess & _).
  exists st, ess. split; [done|].
  rewrite alertCalls_concat, Hess, isResolve_consecutiveCalls.
  apply specConsecutive_alternates.
Qed.

Lemma consecutive_calls_alternate_witness :
  exists st ess,
    ticks Scenario.td0
      (feedCounters Scenario.ccConsecutive [(1, 9); (2, 9); (3, 1); (4, 5); (5, 4); (6, 4)])
      (startWatch Scenario.ccConsecutive) = Some (st, ess)
    /\ alternates false (isResolve <$> alertCalls (concat ess)).
Proof.
  apply (consecutive_calls_alternate Scenario.td0 Scenario.ccConsecutive Scenario.vi0
           [(1, 9); (2, 9); (3, 1); (4, 5); (5, 4); (6, 4)]).
  - repeat split; simpl; constructor.
  - reflexivity.
Defined.
